(** * Shortest latency paths over a Tailscale overlay: dijkstra1.py

    A shallow embedding of the three core functions of [dijkstra1.py]
    ([get_tailscale_network], [dijkstra], [reconstruct_path]) and of their
    caller [run_analysis], the proofs of the properties the specification
    states about them, and of further properties the code shows: its
    exceptions, the shape of its tables and paths, its bounds, and how the
    functions compose.

    Modelling decisions, in the order the reader meets them:
    - a node is its DNS name, a [string];
    - a latency is a Python float.  The functions are modelled twice.  In
      the first model a float is an exact number extended with
      [float('inf')]; what is stated there does not depend on the value of a
      sum: the keys and the shape of the tables and of the paths, the
      exceptions, the bounds on the iterations.  In the second model,
      [Rounded], [dijkstra] runs over an arithmetic that gives the
      operations of the code on floats; what is stated of the sums (the
      distances are the least totals, the total of a path is its distance)
      is stated there, of the sums as the code rounds them, together with
      the scenarios computed on the binary64 floats;
    - a Python [dict] is a [gmap]; a missing key is a [KeyError];
    - the [heapq] list is a bag of [(distance, node)] tuples from which
      [heappop] removes the least tuple in Python's tuple order;
    - [for neighbor, weight in d.items()] visits the entries of a dict in
      the order they were inserted.  The first model visits the entries of
      the [gmap] in the order of [map_to_list]; in [Rounded] the order is a
      parameter, [items], and the tables are proved not to depend on it;
    - a [while] loop takes fuel: one unit per iteration of its body;
    - the processes run by [get_tailscale_network] are an oracle that
      threads the state of the world; [log_callback] appends a line to a
      log and does not raise. *)

From Stdlib Require Import ZArith String PrimFloat.
From stdpp Require Import gmap strings list fin_maps.

Local Open Scope Z_scope.

(** ** Floats: exact numbers with an infinity *)

Module Num.

Inductive t : Type :=
| Fin (z : Z)
| Inf.

#[global] Instance eq_dec : EqDecision t.
Proof. solve_decision. Defined.

Definition zero : t := Fin 0.

(** [a + b] *)
Definition add (a b : t) : t :=
  match a, b with
  | Fin x, Fin y => Fin (x + y)
  | _, _ => Inf
  end.

(** [a < b] *)
Definition ltb (a b : t) : bool :=
  match a, b with
  | Fin x, Fin y => x <? y
  | Fin _, Inf => true
  | Inf, _ => false
  end.

(** [a > b] *)
Definition gtb (a b : t) : bool := ltb b a.

Definition lt (a b : t) : Prop := ltb a b = true.
Definition le (a b : t) : Prop := ltb b a = false.

End Num.

Abbreviation num := Num.t.
Abbreviation Fin := Num.Fin.
Abbreviation Inf := Num.Inf.

Declare Scope num_scope.
Delimit Scope num_scope with num.
Bind Scope num_scope with Num.t.
Infix "<" := Num.lt : num_scope.
Infix "<=" := Num.le : num_scope.
Infix "≤" := Num.le : num_scope.
Infix "+" := Num.add : num_scope.

(** ** Outcomes of a call *)

Inductive exception : Type :=
| KeyError (key : string)
| ProcessError.

Inductive result (A : Type) : Type :=
| Ok (a : A)
| Raise (e : exception)
| OutOfFuel.
Arguments Ok {A} a.
Arguments Raise {A} e.
Arguments OutOfFuel {A}.

#[global] Instance result_bind : MBind result := λ A B k r,
  match r with
  | Ok a => k a
  | Raise e => Raise e
  | OutOfFuel => OutOfFuel
  end.

(** [try: r  except Exception as e: handler(e)] *)
Definition try_except {A} (r : result A) (handler : exception → result A) : result A :=
  match r with
  | Ok a => Ok a
  | Raise e => handler e
  | OutOfFuel => OutOfFuel
  end.

(** [d[k]] *)
Definition getitem {V} (d : gmap string V) (k : string) : result V :=
  match d !! k with
  | Some v => Ok v
  | None => Raise (KeyError k)
  end.

(** [for x in l: st = body(st, x)] *)
Fixpoint for_each {A S} (body : S → A → result S) (l : list A) (st : S) : result S :=
  match l with
  | [] => Ok st
  | x :: xs => st' ← body st x ; for_each body xs st'
  end.

(** ** Data model *)

(** A node is a [string]; a graph is a dict of adjacency dicts,
    [gmap string (gmap string num)]; the distance table is a
    [gmap string num] and the predecessor table a
    [gmap string (option string)], [None] being Python's [None]. *)

(** ** heapq *)

Definition item : Type := num * string.

(** Python's [(d1, n1) < (d2, n2)] on tuples. *)
Definition item_ltb (a b : item) : bool :=
  if decide (a.1 = b.1) then String.ltb a.2 b.2 else Num.ltb a.1 b.1.

(** [pop_min best rest]: the least tuple of [best :: rest] and the others. *)
Fixpoint pop_min (best : item) (rest : list item) : item * list item :=
  match rest with
  | [] => (best, [])
  | x :: xs =>
      if item_ltb x best
      then let '(m, r) := pop_min x xs in (m, best :: r)
      else let '(m, r) := pop_min best xs in (m, x :: r)
  end.

Definition heappush (q : list item) (x : item) : list item := x :: q.

Definition heappop (q : list item) : option (item * list item) :=
  match q with
  | [] => None
  | x :: xs => Some (pop_min x xs)
  end.

(** ** dijkstra *)

Record state : Type := State {
  distances : gmap string num;
  previous_nodes : gmap string (option string);
  priority_queue : list item
}.

Definition set_queue (st : state) (q : list item) : state :=
  State (distances st) (previous_nodes st) q.

(** Lines 58-63: the body of [for neighbor, weight in ...items()]. *)
Definition relax (current_node : string) (current_distance : num)
    (st : state) (e : string * num) : result state :=
  let '(neighbor, weight) := e in
  let distance := Num.add current_distance weight in
  dn ← getitem (distances st) neighbor ;
  if Num.ltb distance dn
  then Ok (State (<[neighbor := distance]> (distances st))
                 (<[neighbor := Some current_node]> (previous_nodes st))
                 (heappush (priority_queue st) (distance, neighbor)))
  else Ok st.

(** Lines 55-63: one iteration of the [while], after the [heappop]. *)
Definition iteration (g : gmap string (gmap string num)) (current_distance : num) (current_node : string)
    (st : state) : result state :=
  d ← getitem (distances st) current_node ;
  if Num.gtb current_distance d
  then Ok st
  else
    adj ← getitem g current_node ;
    for_each (relax current_node current_distance) (map_to_list adj) st.

(** Lines 53-65. *)
Fixpoint dijkstra_loop (fuel : nat) (g : gmap string (gmap string num)) (st : state)
    : result (gmap string num * gmap string (option string)) :=
  match heappop (priority_queue st) with
  | None => Ok (distances st, previous_nodes st)
  | Some ((current_distance, current_node), q) =>
      match fuel with
      | O => OutOfFuel
      | S fuel' =>
          st' ← iteration g current_distance current_node (set_queue st q) ;
          dijkstra_loop fuel' g st'
      end
  end.

(** Lines 48-51. *)
Definition init (g : gmap string (gmap string num)) (start : string) : state :=
  State (<[start := Num.zero]> ((λ _, Inf) <$> g))
        ((λ _, None) <$> g)
        [(Num.zero, start)].

Definition dijkstra (fuel : nat) (g : gmap string (gmap string num)) (start : string)
    : result (gmap string num * gmap string (option string)) :=
  dijkstra_loop fuel g (init g start).

(** ** reconstruct_path *)

(** Lines 69-71; [end_] is a node or [None]. *)
Fixpoint reconstruct_loop (fuel : nat) (prev_nodes : gmap string (option string))
    (end_ : option string) (path : list string) : result (list string) :=
  match end_ with
  | None => Ok path
  | Some e =>
      match fuel with
      | O => OutOfFuel
      | S fuel' =>
          nxt ← getitem prev_nodes e ;
          reconstruct_loop fuel' prev_nodes nxt (e :: path)
      end
  end.

Definition reconstruct_path (fuel : nat) (prev_nodes : gmap string (option string))
    (end_ : option string) : result (list string) :=
  reconstruct_loop fuel prev_nodes end_ [].

(** ** get_tailscale_network *)

(** What [tailscale status --json] and lines 15-22 yield: the [try] fails
    (the function shows an error box and returns [{}]), or the peers' DNS
    names, or an exception of line 22 when the JSON has not the expected
    shape. *)
Inductive status : Type :=
| StatusFailed
| StatusPeers (nodes : result (list string)).

(** What a [subprocess.run] that ends yields: the standard output of the
    process, or the exception the call raises. *)
Inductive run : Type :=
| Completed (stdout : string)
| Failed (e : exception).

Definition run_stdout (r : run) : result string :=
  match r with
  | Completed stdout => Ok stdout
  | Failed e => Raise e
  end.

Inductive log_line : Type :=
| LogLatency (src dst : string) (latency : num)
| LogNoAnswer (src dst : string)
| LogError (src dst : string).

Section Network.

(** The processes the function runs are the outside world: each run
    answers from the current state of the world and changes it. *)
Context {World : Type}.
(** [subprocess.run] of [tailscale status --json] and the decoding of its
    output *)
Variable tailscale_status : World → status * World.
(** [subprocess.run] of [tailscale ping dst --timeout=1s]: its [stdout],
    or the exception it raises *)
Variable tailscale_ping : World → string → run * World.
(** [re.search] of the latency pattern in [stdout], then [float] of the
    matched digits; [None] when the pattern does not match *)
Variable search_latency : string → option num.

Record net : Type := Net {
  net_graph : gmap string (gmap string num);
  net_log : list log_line;
  net_world : World
}.

Definition log_callback (line : log_line) (n : net) : net :=
  Net (net_graph n) (net_log n ++ [line]) (net_world n).

(** Lines 29-43: the probe of one ordered pair. *)
Definition probe (src dst : string) (n : net) : result net :=
  let '(ping_result, w) := tailscale_ping (net_world n) dst in
  let n := Net (net_graph n) (net_log n) w in
  try_except
    (stdout ← run_stdout ping_result ;
     match search_latency stdout with
     | Some latency =>
         adj ← getitem (net_graph n) src ;
         Ok (log_callback (LogLatency src dst latency)
               (Net (<[src := <[dst := latency]> adj]> (net_graph n))
                    (net_log n) (net_world n)))
     | None => Ok (log_callback (LogNoAnswer src dst) n)
     end)
    (λ e, Ok (log_callback (LogError src dst) n)).

(** Lines 26-43. *)
Definition probe_from (nodes : list string) (n : net) (src : string) : result net :=
  for_each (λ n dst, if decide (src = dst) then Ok n else probe src dst n) nodes n.

(** Lines 23-45. *)
Definition build (nodes : list string) (w : World) : result net :=
  let graph : gmap string (gmap string num) := list_to_map ((λ node, (node, ∅)) <$> nodes) in
  for_each (probe_from nodes) nodes (Net graph [] w).

Definition get_tailscale_network (w : World) : result net :=
  let '(st, w) := tailscale_status w in
  match st with
  | StatusFailed => Ok (Net ∅ [] w)
  | StatusPeers r => nodes ← r ; build nodes w
  end.

(** The probe of [dst] in the world [w] gives no latency: the process
    fails, or its output does not match. *)
Definition ping_fails (w : World) (dst : string) : Prop :=
  match (tailscale_ping w dst).1 with
  | Completed stdout => search_latency stdout = None
  | Failed _ => True
  end.

End Network.

Arguments net : clear implicits.

(** [graph[src][dst]], when both keys are there. *)
Definition latency_of (g : gmap string (gmap string num)) (src dst : string) : option num :=
  adj ← g !! src ; adj !! dst.

(** The ordered pair a log line is about. *)
Definition log_pair (line : log_line) : string * string :=
  match line with
  | LogLatency src dst _ => (src, dst)
  | LogNoAnswer src dst => (src, dst)
  | LogError src dst => (src, dst)
  end.

(** What holds of the graph and of the log while the pairs are probed:
    an edge is there exactly when a success is logged for its pair, a pair
    with a failure logged has no edge, and only the pairs in [probed] are
    logged. *)
Record probes_inv (nodes : list string) (probed : string → string → Prop)
    (g : gmap string (gmap string num)) (log : list log_line) : Prop := {
  probes_dom : dom g = list_to_set nodes;
  probes_edge : ∀ src dst latency,
    LogLatency src dst latency ∈ log ↔ latency_of g src dst = Some latency;
  probes_failed : ∀ src dst,
    LogNoAnswer src dst ∈ log ∨ LogError src dst ∈ log → latency_of g src dst = None;
  probes_logged : ∀ line, line ∈ log → probed (log_pair line).1 (log_pair line).2
}.

(** ** Graphs, walks and their weights *)

Definition edge (g : gmap string (gmap string num)) (u v : string) (w : num) : Prop :=
  ∃ adj, g !! u = Some adj ∧ adj !! v = Some w.

Definition nonneg_weights (g : gmap string (gmap string num)) : Prop :=
  ∀ u v w, edge g u v w → (Num.zero ≤ w)%num.

(** Every edge target is a key of the graph. *)
Definition closed (g : gmap string (gmap string num)) : Prop :=
  ∀ u v w, edge g u v w → is_Some (g !! v).

Definition edge_count (g : gmap string (gmap string num)) : nat :=
  sum_list_with (λ kv, length (map_to_list kv.2)) (map_to_list g).

(** [walk g s v d]: some directed path of [g] leads from [s] to [v], and
    its edge weights, added from [s] on, total [d]. *)
Inductive walk (g : gmap string (gmap string num)) (s : string) : string → num → Prop :=
| walk_here : walk g s s Num.zero
| walk_step u v w d : walk g s u d → edge g u v w → walk g s v (d + w)%num.

(** [distance] is the least weight of a walk from [s] to [v], or [Inf]
    when there is none. *)
Definition shortest (g : gmap string (gmap string num)) (s v : string) (distance : num) : Prop :=
  (∀ d, walk g s v d → (distance ≤ d)%num) ∧
  ((distance < Inf)%num → walk g s v distance) ∧
  ((∀ d, ¬ walk g s v d) → distance = Inf).

(** The weights [graph[u][v]] of the consecutive pairs of [u :: rest], added
    to [acc] from left to right; [None] when a pair is not an edge. *)
Fixpoint path_weight (g : gmap string (gmap string num)) (acc : num) (u : string)
    (rest : list string) : option num :=
  match rest with
  | [] => Some acc
  | v :: rest' =>
      match g !! u with
      | Some adj =>
          match adj !! v with
          | Some w => path_weight g (acc + w)%num v rest'
          | None => None
          end
      | None => None
      end
  end.

Definition total_weight (g : gmap string (gmap string num)) (path : list string) : option num :=
  match path with
  | [] => None
  | u :: rest => path_weight g Num.zero u rest
  end.

(** Following the back-links from [v] reaches a node whose predecessor is
    [None]. *)
Inductive leads_to_none (prev_nodes : gmap string (option string)) : string → Prop :=
| leads_here v : prev_nodes !! v = Some None → leads_to_none prev_nodes v
| leads_back v u : prev_nodes !! v = Some (Some u) → leads_to_none prev_nodes u →
    leads_to_none prev_nodes v.

(** ** The loop invariant of dijkstra *)

Section Invariant.

Variable g : gmap string (gmap string num).
Variable s : string.

(** A node is settled once the tuple carrying its finite distance has
    left the queue. *)
Definition settled (st : state) (x : string) : Prop :=
  ∃ dx, distances st !! x = Some dx ∧ (dx < Inf)%num ∧ (dx, x) ∉ priority_queue st.

Definition settledb (st : state) (x : string) : bool :=
  match distances st !! x with
  | Some dx => Num.ltb dx Inf && bool_decide ((dx, x) ∉ priority_queue st)
  | None => false
  end.

(** The back-links from [v] lead to [s] along the path [l] of weight [d]. *)
Inductive pchain (st : state) : string → list string → num → Prop :=
| pchain_root :
    previous_nodes st !! s = Some None → pchain st s [s] Num.zero
| pchain_step u v w l du :
    pchain st u l du → settled st u → distances st !! u = Some du →
    previous_nodes st !! v = Some (Some u) → edge g u v w →
    pchain st v (l ++ [v]) (du + w)%num.

(** [M] is the distance of the last node expanded; [ex x v w] exempts
    the edges of the node being expanded that are still to be relaxed. *)
Record inv (M : num) (ex : string → string → num → Prop) (st : state) : Prop := {
  inv_dom : dom (distances st) = dom g;
  inv_source : distances st !! s = Some Num.zero;
  inv_source_prev : previous_nodes st !! s = Some None;
  inv_bound : (Num.zero ≤ M)%num;
  inv_queue : ∀ d x, (d, x) ∈ priority_queue st →
    (M ≤ d)%num ∧ (d < Inf)%num ∧ ∃ dx, distances st !! x = Some dx ∧ (dx ≤ d)%num;
  inv_nodup : NoDup (priority_queue st);
  inv_settled : ∀ x dx, settled st x → distances st !! x = Some dx → (dx ≤ M)%num;
  inv_relaxed : ∀ x dx v w, settled st x → distances st !! x = Some dx → edge g x v w →
    ex x v w ∨ ∃ dv, distances st !! v = Some dv ∧ (dv ≤ dx + w)%num;
  inv_chain : ∀ v dv, distances st !! v = Some dv → (dv < Inf)%num →
    ∃ l, pchain st v l dv
}.

Definition pending (u : string) (todo : list (string * num)) : string → string → num → Prop :=
  λ x v w, x = u ∧ (v, w) ∈ todo.

Definition no_pending : string → string → num → Prop := λ _ _ _, False.

(** The edges of the nodes not settled yet. *)
Definition work (st : state) : nat :=
  sum_list_with (λ kv, if settledb st kv.1 then 0%nat else length (map_to_list kv.2))
    (map_to_list g).


(** What holds each time the [while] tests its queue. *)
Definition loop_inv (st : state) : Prop := ∃ M, inv M no_pending st.

End Invariant.

Definition two_path_graph : gmap string (gmap string num) :=
  {[ "A" := {[ "B" := Fin 1; "C" := Fin 4 ]};
     "B" := {[ "C" := Fin 1 ]};
     "C" := ∅ ]}%string.



(** Consecutive nodes of [path] are joined by an edge. *)
Definition follows_edges (g : gmap string (gmap string num)) (path : list string) : Prop :=
  ∀ i u v, path !! i = Some u → path !! S i = Some v → ∃ w, edge g u v w.

(** A table whose back-links form a cycle. *)
Definition cyclic_table : gmap string (option string) :=
  {[ "A" := Some "B"; "B" := Some "A" ]}%string.

(** The tables of the two-path scenario. *)
Definition two_path_distances : gmap string num :=
  {[ "A" := Fin 0; "B" := Fin 1; "C" := Fin 2 ]}%string.

Definition two_path_previous : gmap string (option string) :=
  {[ "A" := None; "B" := Some "A"; "C" := Some "B" ]}%string.

(** A world where the probes of ["b"] raise and the others answer 5 ms. *)
Definition example_ping (w : nat) (dst : string) : run * nat :=
  (if decide (dst = "b"%string) then Failed ProcessError else Completed "pong in 5ms",
   S w).

Definition example_search (stdout : string) : option num := Some (Fin 5).

(** ** run_analysis *)

(** What [run_analysis] tells the user: the warning box of line 119, the
    error box of line 126, the line of line 133, or the two lines of lines
    135-136 with the path and its latency. *)
Inductive verdict : Type :=
| Incomplete
| InvalidNodes
| NoRoute
| Route (path : list string) (latency : num).

Section Analysis.

Context {World : Type}.
Variable tailscale_status : World → status * World.
Variable tailscale_ping : World → string → run * World.
Variable search_latency : string → option num.

Record analysis : Type := Analysis {
  analysis_verdict : verdict;
  analysis_log : list log_line;
  analysis_world : World
}.

(** Lines 115-136.  [start] and [end_] are the texts of the two entries
    after [strip()]; the widgets are left out, the verdict carries what is
    shown.  The two loops share the fuel. *)
Definition run_analysis (fuel : nat) (start end_ : string) (w : World) : result analysis :=
  if decide (start = EmptyString ∨ end_ = EmptyString)
  then Ok (Analysis Incomplete [] w)
  else
    n ← get_tailscale_network tailscale_status tailscale_ping search_latency w ;
    let graph := net_graph n in
    if decide (graph !! start = None ∨ graph !! end_ = None)
    then Ok (Analysis InvalidNodes (net_log n) (net_world n))
    else
      tables ← dijkstra fuel graph start ;
      path ← reconstruct_path fuel tables.2 (Some end_) ;
      d ← getitem tables.1 end_ ;
      if decide (d = Inf)
      then Ok (Analysis NoRoute (net_log n) (net_world n))
      else Ok (Analysis (Route path d) (net_log n) (net_world n)).

End Analysis.

Arguments analysis : clear implicits.

(** ** Notions used by the further properties *)

(** What holds of the tables of dijkstra whatever the signs of the weights:
    their keys are those of the graph, a finite distance and a tuple of the
    queue are weights of walks, and a back-link is an edge into a node whose
    distance is finite. *)
Record table_inv (g : gmap string (gmap string num)) (s : string) (st : state) : Prop := {
  ti_dom_dist : dom (distances st) = dom g;
  ti_dom_prev : dom (previous_nodes st) = dom g;
  ti_walk : ∀ v dv, distances st !! v = Some dv → (dv < Inf)%num → walk g s v dv;
  ti_queue : ∀ d x, (d, x) ∈ priority_queue st →
    walk g s x d ∧ is_Some (distances st !! x);
  ti_prev : ∀ v u, previous_nodes st !! v = Some (Some u) →
    (∃ w, edge g u v w) ∧ ∃ dv, distances st !! v = Some dv ∧ (dv < Inf)%num
}.

(** [back_run prev_nodes v l missing]: the walk of [reconstruct_path] from
    [v] finds in the table the nodes of [l], from the last one found to [v],
    and ends on a [None] predecessor ([missing = None]) or on a key that is
    not in the table ([missing = Some key]). *)
Inductive back_run (prev_nodes : gmap string (option string))
    : string → list string → option string → Prop :=
| back_none v : prev_nodes !! v = Some None → back_run prev_nodes v [v] None
| back_missing v : prev_nodes !! v = None → back_run prev_nodes v [] (Some v)
| back_step v u l missing :
    prev_nodes !! v = Some (Some u) → back_run prev_nodes u l missing →
    back_run prev_nodes v (l ++ [v]) missing.

(** The outcome of the walk that [back_run] tells, when the loop started
    with [acc] as its path. *)
Definition back_outcome (l : list string) (missing : option string)
    (acc : list string) : result (list string) :=
  match missing with
  | None => Ok (l ++ acc)
  | Some key => Raise (KeyError key)
  end.

(** The ordered pairs of distinct nodes, in the order of lines 25-28. *)
Definition ordered_pairs (nodes : list string) : list (string * string) :=
  src ← nodes ; dst ← nodes ; if decide (src = dst) then [] else [(src, dst)].

(** What holds of the graph while the pairs are probed, whatever the
    nodes: an edge joins two distinct nodes of the list and carries a
    latency that the matcher read. *)
Definition edges_ok (search_latency : string → option num) (nodes : list string)
    (g : gmap string (gmap string num)) : Prop :=
  ∀ src dst latency, latency_of g src dst = Some latency →
    src ≠ dst ∧ src ∈ nodes ∧ dst ∈ nodes ∧
    ∃ stdout, search_latency stdout = Some latency.

(** The matcher reads digits: no latency is negative. *)
Definition nonneg_matcher (search_latency : string → option num) : Prop :=
  ∀ stdout latency, search_latency stdout = Some latency → (Num.zero ≤ latency)%num.

(** A graph with a negative weight: A -> B (-1). *)
Definition negative_graph : gmap string (gmap string num) :=
  {[ "A" := {[ "B" := Fin (-1) ]}; "B" := ∅ ]}%string.

(** A graph with an edge to a node that is not a key. *)
Definition dangling_graph : gmap string (gmap string num) :=
  {[ "A" := {[ "B" := Fin 1 ]} ]}%string.

(** A table whose back-links leave the table. *)
Definition broken_table : gmap string (option string) :=
  {[ "C" := Some "B" ]}%string.


Definition malformed_status (w : nat) : status * nat :=
  (StatusPeers (Raise (KeyError "Peer")), S w).

(** * dijkstra over the arithmetic of floats

    The distances that [dijkstra] adds and compares are Python floats: a sum
    is rounded to the nearest float, it is [float('inf')] when it is too
    large, and [for neighbor, weight in d.items()] visits the entries of a
    dict in the order they were inserted.  [Rounded] has [dijkstra] over an
    arithmetic [arith], which gives the five operations that the code applies
    to a distance, and over an order of visit [items].  The exact numbers
    above are one such arithmetic ([exact]), the binary64 floats of Python
    another ([binary64]).  What is proved of the sums that [dijkstra] makes
    is proved here, for every arithmetic that has the laws [lawful], which
    speak of the values [good] of the contract only: for binary64, the
    floats that are not NaN and whose sign bit is clear. *)

Module Rounded.

Record arith : Type := Arith {
  float : Type;
  zero : float;
  inf : float;
  add : float → float → float;
  ltb : float → float → bool;
  eqb : float → float → bool
}.
Arguments zero {_}.
Arguments inf {_}.
Arguments add {_} _ _.
Arguments ltb {_} _ _.
Arguments eqb {_} _ _.

(** [a > b] *)
Definition gtb {A : arith} (a b : float A) : bool := ltb b a.

Definition lt {A : arith} (a b : float A) : Prop := ltb a b = true.
Definition le {A : arith} (a b : float A) : Prop := ltb b a = false.

Declare Scope rounded_scope.
Delimit Scope rounded_scope with fl.
Infix "<" := lt : rounded_scope.
Infix "<=" := le : rounded_scope.
Infix "≤" := le : rounded_scope.
Infix "+" := add : rounded_scope.

(** ** The laws of the order and of the addition

    [ordered good]: on the values [good], which hold [0] and the sums of
    their members, [<] is a strict total order and [==] is the equality. *)
Record ordered {A : arith} (good : float A → Prop) : Prop := {
  ord_zero : good zero;
  ord_add : ∀ a b, good a → good b → good (a + b)%fl;
  ord_refl : ∀ a, good a → (a ≤ a)%fl;
  ord_trans : ∀ a b c, good a → good b → good c → (a ≤ b)%fl → (b ≤ c)%fl → (a ≤ c)%fl;
  ord_asym : ∀ a b, good a → good b → (a < b)%fl → (a ≤ b)%fl;
  ord_antisym : ∀ a b, good a → good b → (a ≤ b)%fl → (b ≤ a)%fl → a = b;
  ord_eqb : ∀ a b, good a → good b → (eqb a b = true ↔ a = b)
}.

(** [lawful good]: moreover [0] is the least and [float('inf')] the greatest
    of the values [good], a sum is not below its first term, and the sum
    with a given term grows with the other term.  Rounding to the nearest
    float keeps the last two laws, which the exact sum has. *)
Record lawful {A : arith} (good : float A → Prop) : Prop := {
  law_ordered : ordered good;
  law_inf : good inf;
  law_top : ∀ a, good a → (a ≤ inf)%fl;
  law_bottom : ∀ a, good a → (zero ≤ a)%fl;
  law_finite : ((zero : float A) < inf)%fl;
  law_mono : ∀ a b w, good a → good b → good w → (a ≤ b)%fl → (a + w ≤ b + w)%fl;
  law_infl : ∀ a w, good a → good w → (a ≤ a + w)%fl
}.

(** ** heapq and dijkstra *)

Section Functions.

Context {A : arith}.
(** [items u adj]: the entries of [graph[u]], which is the dict [adj], in
    the order [.items()] yields them *)
Variable items : string → gmap string (float A) → list (string * float A).

Definition item : Type := float A * string.

(** Python's [(d1, n1) < (d2, n2)] on tuples. *)
Definition item_ltb (a b : item) : bool :=
  if eqb a.1 b.1 then String.ltb a.2 b.2 else ltb a.1 b.1.

Fixpoint pop_min (best : item) (rest : list item) : item * list item :=
  match rest with
  | [] => (best, [])
  | x :: xs =>
      if item_ltb x best
      then let '(m, r) := pop_min x xs in (m, best :: r)
      else let '(m, r) := pop_min best xs in (m, x :: r)
  end.

Definition heappush (q : list item) (x : item) : list item := x :: q.

Definition heappop (q : list item) : option (item * list item) :=
  match q with
  | [] => None
  | x :: xs => Some (pop_min x xs)
  end.

Record state : Type := State {
  distances : gmap string (float A);
  previous_nodes : gmap string (option string);
  priority_queue : list item
}.

Definition set_queue (st : state) (q : list item) : state :=
  State (distances st) (previous_nodes st) q.

(** Lines 58-63: the body of [for neighbor, weight in ...items()]. *)
Definition relax (current_node : string) (current_distance : float A)
    (st : state) (e : string * float A) : result state :=
  let '(neighbor, weight) := e in
  let distance := add current_distance weight in
  dn ← getitem (distances st) neighbor ;
  if ltb distance dn
  then Ok (State (<[neighbor := distance]> (distances st))
                 (<[neighbor := Some current_node]> (previous_nodes st))
                 (heappush (priority_queue st) (distance, neighbor)))
  else Ok st.

(** Lines 55-63: one iteration of the [while], after the [heappop]. *)
Definition iteration (g : gmap string (gmap string (float A)))
    (current_distance : float A) (current_node : string) (st : state) : result state :=
  d ← getitem (distances st) current_node ;
  if gtb current_distance d
  then Ok st
  else
    adj ← getitem g current_node ;
    for_each (relax current_node current_distance) (items current_node adj) st.

(** Lines 53-65. *)
Fixpoint dijkstra_loop (fuel : nat) (g : gmap string (gmap string (float A))) (st : state)
    : result (gmap string (float A) * gmap string (option string)) :=
  match heappop (priority_queue st) with
  | None => Ok (distances st, previous_nodes st)
  | Some ((current_distance, current_node), q) =>
      match fuel with
      | O => OutOfFuel
      | S fuel' =>
          st' ← iteration g current_distance current_node (set_queue st q) ;
          dijkstra_loop fuel' g st'
      end
  end.

(** Lines 48-51. *)
Definition init (g : gmap string (gmap string (float A))) (start : string) : state :=
  State (<[start := zero]> ((λ _, inf) <$> g))
        ((λ _, None) <$> g)
        [(zero, start)].

Definition dijkstra (fuel : nat) (g : gmap string (gmap string (float A))) (start : string)
    : result (gmap string (float A) * gmap string (option string)) :=
  dijkstra_loop fuel g (init g start).

End Functions.

Arguments item : clear implicits.
Arguments state : clear implicits.

(** ** Graphs, walks and their weights *)

Section Graphs.

Context {A : arith}.

Definition edge (g : gmap string (gmap string (float A))) (u v : string) (w : float A) : Prop :=
  ∃ adj, g !! u = Some adj ∧ adj !! v = Some w.

(** Every weight is a value of the contract. *)
Definition good_weights (good : float A → Prop) (g : gmap string (gmap string (float A))) : Prop :=
  ∀ u v w, edge g u v w → good w.

(** Every edge target is a key of the graph. *)
Definition closed (g : gmap string (gmap string (float A))) : Prop :=
  ∀ u v w, edge g u v w → is_Some (g !! v).

Definition edge_count (g : gmap string (gmap string (float A))) : nat :=
  sum_list_with (λ kv, length (map_to_list kv.2)) (map_to_list g).

(** [.items()] yields each entry of the dict once, in some order. *)
Definition visit_order (items : string → gmap string (float A) → list (string * float A)) : Prop :=
  ∀ u adj, items u adj ≡ₚ map_to_list adj.

(** [walk g s v d]: some directed path of [g] leads from [s] to [v], and
    its edge weights, added from [s] on by the addition of the code, total
    [d]. *)
Inductive walk (g : gmap string (gmap string (float A))) (s : string) : string → float A → Prop :=
| walk_here : walk g s s zero
| walk_step u v w d : walk g s u d → edge g u v w → walk g s v (d + w)%fl.

(** [distance] is the least total of a walk from [s] to [v], or
    [float('inf')] when there is none. *)
Definition shortest (g : gmap string (gmap string (float A))) (s v : string)
    (distance : float A) : Prop :=
  (∀ d, walk g s v d → (distance ≤ d)%fl) ∧
  ((distance < inf)%fl → walk g s v distance) ∧
  ((∀ d, ¬ walk g s v d) → distance = inf).

(** The weights [graph[u][v]] of the consecutive pairs of [u :: rest], added
    to [acc] from left to right; [None] when a pair is not an edge. *)
Fixpoint path_weight (g : gmap string (gmap string (float A))) (acc : float A) (u : string)
    (rest : list string) : option (float A) :=
  match rest with
  | [] => Some acc
  | v :: rest' =>
      match g !! u with
      | Some adj =>
          match adj !! v with
          | Some w => path_weight g (acc + w)%fl v rest'
          | None => None
          end
      | None => None
      end
  end.

Definition total_weight (g : gmap string (gmap string (float A))) (path : list string)
    : option (float A) :=
  match path with
  | [] => None
  | u :: rest => path_weight g zero u rest
  end.

(** Consecutive nodes of [path] are joined by an edge. *)
Definition follows_edges (g : gmap string (gmap string (float A))) (path : list string) : Prop :=
  ∀ i u v, path !! i = Some u → path !! S i = Some v → ∃ w, edge g u v w.

End Graphs.

(** ** The loop invariant *)

Section Invariant.

Context {A : arith}.
Variable good : float A → Prop.
Variable g : gmap string (gmap string (float A)).
Variable s : string.

(** A node is settled once the tuple carrying its finite distance has
    left the queue. *)
Definition settled (st : state A) (x : string) : Prop :=
  ∃ dx, distances st !! x = Some dx ∧ (dx < inf)%fl ∧ (dx, x) ∉ priority_queue st.

(** The back-links from [v] lead to [s] along the path [l] of total [d]. *)
Inductive pchain (st : state A) : string → list string → float A → Prop :=
| pchain_root :
    previous_nodes st !! s = Some None → pchain st s [s] zero
| pchain_step u v w l du :
    pchain st u l du → settled st u → distances st !! u = Some du →
    previous_nodes st !! v = Some (Some u) → edge g u v w →
    pchain st v (l ++ [v]) (du + w)%fl.

(** [M] is the distance of the last node expanded; [ex x v w] exempts
    the edges of the node being expanded that are still to be relaxed. *)
Record inv (M : float A) (ex : string → string → float A → Prop) (st : state A) : Prop := {
  inv_dom : dom (distances st) = dom g;
  inv_source : distances st !! s = Some zero;
  inv_source_prev : previous_nodes st !! s = Some None;
  inv_bound : good M;
  inv_good : ∀ x dx, distances st !! x = Some dx → good dx;
  inv_queue : ∀ d x, (d, x) ∈ priority_queue st →
    good d ∧ (M ≤ d)%fl ∧ (d < inf)%fl ∧
    ∃ dx, distances st !! x = Some dx ∧ (dx ≤ d)%fl;
  inv_nodup : NoDup (priority_queue st);
  inv_settled : ∀ x dx, settled st x → distances st !! x = Some dx → (dx ≤ M)%fl;
  inv_relaxed : ∀ x dx v w, settled st x → distances st !! x = Some dx → edge g x v w →
    ex x v w ∨ ∃ dv, distances st !! v = Some dv ∧ (dv ≤ dx + w)%fl;
  inv_chain : ∀ v dv, distances st !! v = Some dv → (dv < inf)%fl →
    ∃ l, pchain st v l dv;
  inv_prev : ∀ v u, previous_nodes st !! v = Some (Some u) →
    ∃ dv, distances st !! v = Some dv ∧ (dv < inf)%fl
}.

Definition pending (u : string) (todo : list (string * float A))
    : string → string → float A → Prop :=
  λ x v w, x = u ∧ (v, w) ∈ todo.

Definition no_pending : string → string → float A → Prop := λ _ _ _, False.

(** The edges of the nodes outside [popped]. *)
Definition work (popped : gset string) : nat :=
  sum_list_with (λ kv, if decide (kv.1 ∈ popped) then 0%nat else length (map_to_list kv.2))
    (map_to_list g).

(** What holds each time the [while] tests its queue: the invariant, and
    [budget] bounds the tuples of the queue plus the edges of the nodes that
    are not settled yet. *)
Definition loop_inv (budget : nat) (st : state A) : Prop :=
  ∃ M popped, inv M no_pending st ∧ (∀ x, x ∈ popped → settled st x) ∧
    (length (priority_queue st) + work popped ≤ budget)%nat.

(** What holds of the tables whatever the weights: a distance is
    [float('inf')] or the total of a walk, and a tuple of the queue carries
    the total of a walk. *)
Record walks_inv (st : state A) : Prop := {
  wi_walk : ∀ v dv, distances st !! v = Some dv → dv = inf ∨ walk g s v dv;
  wi_queue : ∀ d x, (d, x) ∈ priority_queue st → walk g s x d
}.

End Invariant.

(** ** Two runs

    Two states of two runs that visit the dicts in different orders: the
    same tables, and the same tuples in the heap. *)
Definition same_state {A : arith} (st1 st2 : state A) : Prop :=
  distances st1 = distances st2 ∧ previous_nodes st1 = previous_nodes st2 ∧
  priority_queue st1 ≡ₚ priority_queue st2.

(** Two outcomes that agree: results related by [R], or a [KeyError] each,
    or no fuel left for either. *)
Definition agree {T : Type} (R : T → T → Prop) (r1 r2 : result T) : Prop :=
  match r1, r2 with
  | Ok t1, Ok t2 => R t1 t2
  | Raise (KeyError _), Raise (KeyError _) => True
  | OutOfFuel, OutOfFuel => True
  | _, _ => False
  end.

(** Every tuple of the queue carries a value of the contract. *)
Definition good_queue {A : arith} (good : float A → Prop) (st : state A) : Prop :=
  ∀ x, x ∈ priority_queue st → good x.1.

(** ** Arithmetics *)

(** The exact numbers; the values of the contract are those not below 0. *)
Definition exact : arith :=
  Arith num Num.zero Inf Num.add Num.ltb (λ a b, bool_decide (a = b)).

Definition nonneg (a : float exact) : Prop := Num.le Num.zero a.

(** The exact sum rounded by [rnd], and [float('inf')] when the rounded sum
    is above [top]: an arithmetic that rounds and overflows.  The values of
    the contract are [float('inf')] and the numbers from 0 to [top] that
    [rnd] leaves as they are. *)
Definition rounding (rnd : Z → Z) (top : Z) : arith :=
  Arith num Num.zero Inf
    (λ a b, match a, b with
            | Fin x, Fin y => let z := rnd (x + y) in if top <? z then Inf else Fin z
            | _, _ => Inf
            end)
    Num.ltb (λ a b, bool_decide (a = b)).

Definition representable (rnd : Z → Z) (top : Z) (a : float (rounding rnd top)) : Prop :=
  match a with
  | Fin x => 0 ≤ x ∧ rnd x = x ∧ x ≤ top
  | Inf => True
  end.

(** Sums rounded down to an even number from 8 on, none above 14. *)
Definition round_down (x : Z) : Z := if x <? 8 then x else 2 * (x / 2).

Definition coarse : arith := rounding round_down 14.

(** The floats of Python; the values of the contract are those that are
    not NaN and whose sign bit is clear. *)
Definition binary64 : arith :=
  Arith PrimFloat.float PrimFloat.zero PrimFloat.infinity
        PrimFloat.add PrimFloat.ltb PrimFloat.eqb.

Definition good64 (a : PrimFloat.float) : Prop :=
  match PrimFloat.classify a with
  | FloatClass.PZero | FloatClass.PSubn | FloatClass.PNormal | FloatClass.PInf => True
  | _ => False
  end.

(** ** Orders of visit and graphs for the examples *)

(** The order of [map_to_list], and the reverse order. *)
Definition listed {A : arith} : string → gmap string (float A) → list (string * float A) :=
  λ _ adj, map_to_list adj.

Definition backwards {A : arith} : string → gmap string (float A) → list (string * float A) :=
  λ _ adj, reverse (map_to_list adj).

(** A -> B (2^53), A -> D (2^53 + 2), B -> C (1.0), C -> D (1.0): the sum
    2^53 + 1.0 is rounded to 2^53. *)
Definition rounding_graph : gmap string (gmap string (float binary64)) :=
  {[ "A" := {[ "B" := 0x1p+53%float; "D" := 9007199254740994%float ]};
     "B" := {[ "C" := 1%float ]};
     "C" := {[ "D" := 1%float ]};
     "D" := ∅ ]}%string.

(** A -> B (2^1023), B -> C (2^1023): the sum of the two is
    [float('inf')]. *)
Definition overflow_graph : gmap string (gmap string (float binary64)) :=
  {[ "A" := {[ "B" := 0x1p+1023%float ]};
     "B" := {[ "C" := 0x1p+1023%float ]};
     "C" := ∅ ]}%string.

(** A -> B (12.5), B -> C (0.25). *)
Definition fraction_graph : gmap string (gmap string (float binary64)) :=
  {[ "A" := {[ "B" := 12.5%float ]};
     "B" := {[ "C" := 0.25%float ]};
     "C" := ∅ ]}%string.

(** The same shape in [coarse], where 8 + 1 is rounded to 8, and the tables
    of dijkstra on it. *)
Definition coarse_graph : gmap string (gmap string (float coarse)) :=
  {[ "A" := {[ "B" := Fin 8; "D" := Fin 10 ]};
     "B" := {[ "C" := Fin 1 ]};
     "C" := {[ "D" := Fin 1 ]};
     "D" := ∅ ]}%string.

Definition coarse_distances : gmap string (float coarse) :=
  {[ "A" := Fin 0; "B" := Fin 8; "C" := Fin 8; "D" := Fin 8 ]}%string.

Definition coarse_previous : gmap string (option string) :=
  {[ "A" := None; "B" := Some "A"; "C" := Some "B"; "D" := Some "C" ]}%string.

(** The same graph as [rounding_graph] with exact numbers. *)
Definition unrounded_graph : gmap string (gmap string (float exact)) :=
  {[ "A" := {[ "B" := Fin 9007199254740992; "D" := Fin 9007199254740994 ]};
     "B" := {[ "C" := Fin 1 ]};
     "C" := {[ "D" := Fin 1 ]};
     "D" := ∅ ]}%string.

(** The laws of [lawful], but for the closure of the values of the contract
    under the sum, as a check on the values of a list. *)
Definition laws_hold_on {A : arith} (sample : list (float A)) : bool :=
  forallb (λ a, forallb (λ b, forallb (λ c,
    negb (ltb a a) &&
    implb (ltb a b) (negb (ltb b a)) &&
    implb (negb (ltb b a) && negb (ltb c b)) (negb (ltb c a)) &&
    implb (negb (ltb b a) && negb (ltb a b)) (eqb a b) &&
    negb (ltb inf a) && negb (ltb a zero) &&
    implb (negb (ltb b a)) (negb (ltb (add b c) (add a c))) &&
    negb (ltb (add a c) a)) sample) sample) sample.

Definition sample64 : list (float binary64) :=
  [0; 0.25; 1; 12.5; 0x1p+53; 9007199254740994; 0x1p+1023; infinity]%float.

End Rounded.

(** * Facts about numbers *)

Module NumFacts.

Ltac crush :=
  intros;
  unfold Num.lt, Num.le, Num.gtb, Num.zero in *;
  repeat match goal with x : num |- _ => destruct x end;
  simpl in *;
  rewrite ?Z.ltb_lt, ?Z.ltb_ge in *;
  try first [ discriminate | congruence | lia | f_equal; lia ].

Lemma le_refl a : (a ≤ a)%num.
Proof. crush. Qed.

Lemma le_trans a b c : (a ≤ b)%num → (b ≤ c)%num → (a ≤ c)%num.
Proof. crush. Qed.

Lemma lt_le_trans a b c : (a < b)%num → (b ≤ c)%num → (a < c)%num.
Proof. crush. Qed.

Lemma le_lt_trans a b c : (a ≤ b)%num → (b < c)%num → (a < c)%num.
Proof. crush. Qed.

Lemma lt_le a b : (a < b)%num → (a ≤ b)%num.
Proof. crush. Qed.


Lemma le_antisym a b : (a ≤ b)%num → (b ≤ a)%num → a = b.
Proof. crush. Qed.

Lemma le_Inf a : (a ≤ Inf)%num.
Proof. crush. Qed.

Lemma Inf_le a : (Inf ≤ a)%num → a = Inf.
Proof. crush. Qed.


Lemma zero_lt_Inf : (Num.zero < Inf)%num.
Proof. done. Qed.

Lemma add_le_mono_r a b w : (a ≤ b)%num → (a + w ≤ b + w)%num.
Proof. crush. Qed.


Lemma add_Inf_l w : (Inf + w)%num = Inf.
Proof. done. Qed.

Lemma ltb_lt a b : Num.ltb a b = true ↔ (a < b)%num.
Proof. done. Qed.

Lemma ltb_ge a b : Num.ltb a b = false ↔ (b ≤ a)%num.
Proof. done. Qed.

End NumFacts.

(** * Facts about the heap *)

Lemma item_ltb_true (a b : item) : item_ltb a b = true → (a.1 ≤ b.1)%num.
Proof.
  unfold item_ltb. case_decide as Heq.
  - intros _. rewrite Heq. apply NumFacts.le_refl.
  - intros H. by apply NumFacts.lt_le.
Qed.

Lemma item_ltb_false (a b : item) : item_ltb a b = false → (b.1 ≤ a.1)%num.
Proof.
  unfold item_ltb. case_decide as Heq.
  - intros _. rewrite Heq. apply NumFacts.le_refl.
  - done.
Qed.

Lemma pop_min_spec (rest : list item) : ∀ best m r,
  pop_min best rest = (m, r) →
  best :: rest ≡ₚ m :: r ∧ ∀ x, x ∈ best :: rest → (m.1 ≤ x.1)%num.
Proof.
  induction rest as [|x xs IH]; intros best m r; simpl.
  - intros [= <- <-]. split; [done|].
    intros y ->%list_elem_of_singleton. apply NumFacts.le_refl.
  - destruct (item_ltb x best) eqn:Hlt.
    + destruct (pop_min x xs) as [m' r'] eqn:Hpop. intros [= <- <-].
      destruct (IH _ _ _ Hpop) as [Hperm Hmin]. split.
      * rewrite Hperm. apply Permutation_swap.
      * intros y [->|Hy]%elem_of_cons; [|by apply Hmin].
        eapply NumFacts.le_trans; [apply Hmin; left|by apply item_ltb_true].
    + destruct (pop_min best xs) as [m' r'] eqn:Hpop. intros [= <- <-].
      destruct (IH _ _ _ Hpop) as [Hperm Hmin]. split.
      * rewrite (Permutation_swap x best xs), Hperm. apply Permutation_swap.
      * intros y [->|[->|Hy]%elem_of_cons]%elem_of_cons.
        -- apply Hmin; left.
        -- eapply NumFacts.le_trans; [apply Hmin; left|by apply item_ltb_false].
        -- apply Hmin; by right.
Qed.

Lemma string_ltb_leb (a b : string) : String.ltb b a = negb (String.leb a b).
Proof.
  unfold String.ltb, String.leb. rewrite (String.compare_antisym a b).
  by destruct (String.compare b a).
Qed.

(** [item_ltb b a = false] reads [a <= b] in Python's tuple order; it is
    transitive, and [a < b] gives [a <= b]. *)
Lemma item_le_trans (a b c : item) :
  item_ltb b a = false → item_ltb c b = false → item_ltb c a = false.
Proof.
  unfold item_ltb. destruct a as [a1 a2], b as [b1 b2], c as [c1 c2]; simpl.
  repeat case_decide; subst; try done; intros Hab Hbc.
  - rewrite string_ltb_leb, negb_false_iff in Hab, Hbc |- *.
    apply Is_true_true in Hab, Hbc. apply Is_true_true.
    by transitivity b2.
  - exfalso.
    match goal with Hne : _ ≠ _ |- _ => apply Hne; by apply NumFacts.le_antisym end.
  - by eapply NumFacts.le_trans.
Qed.

Lemma item_ltb_asym (a b : item) : item_ltb a b = true → item_ltb b a = false.
Proof.
  unfold item_ltb. destruct a as [a1 a2], b as [b1 b2]; simpl.
  repeat case_decide; subst; try done.
  - unfold String.ltb. rewrite (String.compare_antisym b2 a2).
    by destruct (String.compare a2 b2).
  - intros Hlt. by apply NumFacts.lt_le.
Qed.

(** The tuple popped is the least of the heap in Python's tuple order. *)
Lemma pop_min_least (rest : list item) : ∀ best m r,
  pop_min best rest = (m, r) → ∀ x, x ∈ best :: rest → item_ltb x m = false.
Proof.
  induction rest as [|x xs IH]; intros best m r; simpl.
  - intros [= <- <-] y ->%list_elem_of_singleton.
    unfold item_ltb. rewrite decide_True by done.
    unfold String.ltb. assert (String.compare best.2 best.2 = Eq) as ->; [|done].
    generalize best.2. intros t. induction t as [|c t IHt]; simpl; [done|].
    unfold Ascii.compare. by rewrite N.compare_refl.
  - destruct (item_ltb x best) eqn:Hlt.
    + destruct (pop_min x xs) as [m' r'] eqn:Hpop. intros [= <- <-].
      intros y [->|Hy]%elem_of_cons; [|by eapply IH].
      eapply item_le_trans; [|by apply item_ltb_asym].
      eapply IH; [done|left].
    + destruct (pop_min best xs) as [m' r'] eqn:Hpop. intros [= <- <-].
      intros y [->|[->|Hy]%elem_of_cons]%elem_of_cons.
      * eapply IH; [done|left].
      * eapply item_le_trans; [|exact Hlt]. eapply IH; [done|left].
      * eapply IH; [done|by right].
Qed.

Lemma heappop_least (q : list item) m r :
  heappop q = Some (m, r) → ∀ x, x ∈ q → item_ltb x m = false.
Proof.
  destruct q as [|x xs]; [done|]. simpl. intros [= H]. by eapply pop_min_least.
Qed.

Lemma heappop_spec (q : list item) m r :
  heappop q = Some (m, r) →
  q ≡ₚ m :: r ∧ ∀ x, x ∈ q → (m.1 ≤ x.1)%num.
Proof.
  destruct q as [|x xs]; [done|]. simpl. intros [= H]. by apply pop_min_spec.
Qed.


(** * Loops and sums over lists *)

Lemma for_each_cons {A S} (body : S → A → result S) x xs st :
  for_each body (x :: xs) st = body st x ≫= for_each body xs.
Proof. done. Qed.

Lemma sum_list_with_le {A} (f f' : A → nat) (l : list A) :
  (∀ x, x ∈ l → (f' x ≤ f x)%nat) → (sum_list_with f' l ≤ sum_list_with f l)%nat.
Proof.
  induction l as [|y l IH]; intros H; simpl; [lia|].
  pose proof (H y ltac:(left)). pose proof (IH (λ x Hx, H x ltac:(by right))). lia.
Qed.

Lemma sum_list_with_drop {A} (f f' : A → nat) (l : list A) (x0 : A) (k : nat) :
  x0 ∈ l → (f' x0 + k ≤ f x0)%nat → (∀ x, x ∈ l → (f' x ≤ f x)%nat) →
  (sum_list_with f' l + k ≤ sum_list_with f l)%nat.
Proof.
  induction l as [|y l IH]; intros Hin Hk H; simpl; [by apply elem_of_nil in Hin|].
  pose proof (H y ltac:(left)) as Hy.
  pose proof (sum_list_with_le f f' l (λ x Hx, H x ltac:(by right))) as Hl.
  apply elem_of_cons in Hin as [<-|Hin]; [lia|].
  pose proof (IH Hin Hk (λ x Hx, H x ltac:(by right))). lia.
Qed.

(** * The invariant is kept *)

Section Preservation.

Variable g : gmap string (gmap string num).
Variable s : string.
Hypothesis Hnonneg : nonneg_weights g.









End Preservation.

(** * From the invariant to the results of dijkstra *)

Section Correctness.

Variable g : gmap string (gmap string num).
Variable s : string.
Hypothesis Hnonneg : nonneg_weights g.
Hypothesis Hsource : is_Some (g !! s).

Lemma init_lookup x dx :
  distances (init g s) !! x = Some dx →
  (x = s ∧ dx = Num.zero) ∨ (x ≠ s ∧ dx = Inf).
Proof.
  simpl. destruct (decide (x = s)) as [->|Hne].
  - rewrite lookup_insert_eq. intros [= <-]. by left.
  - rewrite lookup_insert_ne, lookup_fmap by done.
    destruct (g !! x); simpl; [|done]. intros [= <-]. by right.
Qed.






End Correctness.

(** * Paths read from the predecessor table *)




(** * Fuel *)

Lemma dijkstra_loop_fuel n : ∀ g st r m,
  dijkstra_loop n g st = r → r ≠ OutOfFuel → (n ≤ m)%nat →
  dijkstra_loop m g st = r.
Proof.
  induction n as [|n IH]; intros g st r m; simpl.
  - destruct (heappop (priority_queue st)) as [[[d u] q]|] eqn:Hpop.
    + by intros <-.
    + intros <- _ _. destruct m; simpl; by rewrite Hpop.
  - destruct (heappop (priority_queue st)) as [[[d u] q]|] eqn:Hpop.
    + intros Hr Hne Hle. destruct m as [|m]; [lia|]. simpl. rewrite Hpop.
      destruct (iteration g d u (set_queue st q)) as [st'|e|]; simpl in *; [|done..].
      apply IH; [done..|lia].
    + intros <- _ _. destruct m; simpl; by rewrite Hpop.
Qed.

Lemma reconstruct_loop_leads prev_nodes fuel : ∀ v acc path,
  reconstruct_loop fuel prev_nodes (Some v) acc = Ok path →
  leads_to_none prev_nodes v.
Proof.
  induction fuel as [|fuel IH]; intros v acc path; simpl; [done|].
  unfold getitem. destruct (prev_nodes !! v) as [[u|]|] eqn:Hv; simpl; [| |done].
  - intros H. eapply leads_back; [done|]. by eapply IH.
  - intros _. by apply leads_here.
Qed.

Lemma leads_reconstruct_loop prev_nodes v :
  leads_to_none prev_nodes v →
  ∀ acc, ∃ fuel path, reconstruct_loop fuel prev_nodes (Some v) acc = Ok path.
Proof.
  induction 1 as [v Hv|v u Hv _ IH]; intros acc.
  - exists 1%nat, (v :: acc). simpl. unfold getitem. by rewrite Hv.
  - destruct (IH (v :: acc)) as (fuel & path & Hrec).
    exists (S fuel), path. simpl. unfold getitem. by rewrite Hv.
Qed.

Lemma cyclic_table_loops fuel : ∀ acc,
  reconstruct_loop fuel cyclic_table (Some "A"%string) acc = OutOfFuel ∧
  reconstruct_loop fuel cyclic_table (Some "B"%string) acc = OutOfFuel.
Proof.
  assert (HA : cyclic_table !! "A"%string = Some (Some "B"%string)) by done.
  assert (HB : cyclic_table !! "B"%string = Some (Some "A"%string)) by done.
  induction fuel as [|fuel IH]; intros acc; [done|].
  simpl. unfold getitem. rewrite HA, HB. simpl.
  split; apply IH.
Qed.

(** * The boolean checks are sound *)



(** * The properties of dijkstra and reconstruct_path *)




(** C6. When the predecessor of the destination is [None], reconstruct_path
    returns the one-element sequence made of the destination. *)
Theorem reconstruct_path_unreached prev_nodes destination fuel :
  prev_nodes !! destination = Some None →
  reconstruct_path (S fuel) prev_nodes (Some destination) = Ok [destination].
Proof.
  intros H. unfold reconstruct_path. simpl. unfold getitem. rewrite H.
  by destruct fuel.
Qed.

(** C7, as the specification states it, fails: on a table whose back-links
    form a cycle reconstruct_path never returns, whatever the fuel. *)
Lemma reconstruct_path_cycle_diverges :
  ¬ ∃ fuel, reconstruct_path fuel cyclic_table (Some "A"%string) ≠ OutOfFuel.
Proof.
  intros [fuel H]. apply H. apply cyclic_table_loops.
Qed.

(** C7, amended. reconstruct_path has no guard: it returns a path exactly
    when the back-links from the destination lead to a node whose
    predecessor is [None]. *)
Theorem reconstruct_path_returns_iff prev_nodes v :
  (∃ fuel path, reconstruct_path fuel prev_nodes (Some v) = Ok path) ↔
  leads_to_none prev_nodes v.
Proof.
  split.
  - intros (fuel & path & H). by eapply reconstruct_loop_leads.
  - intros H. by apply leads_reconstruct_loop.
Qed.

(** C9. On the graph A -> B (1), A -> C (4), B -> C (1) from A, dijkstra
    gives C the distance 2, less than the weight 4 of the direct edge, and
    the path to C is A, B, C. *)
Theorem two_path_scenario :
  ∃ D P, dijkstra 4 two_path_graph "A" = Ok (D, P) ∧
    D !! "C"%string = Some (Fin 2) ∧ (Fin 2 < Fin 4)%num ∧
    latency_of two_path_graph "A" "C" = Some (Fin 4) ∧
    reconstruct_path 3 P (Some "C"%string) = Ok ["A"; "B"; "C"]%string.
Proof.
  exists two_path_distances, two_path_previous.
  split_and!; by vm_compute.
Qed.


(** * The graph built from the probes *)

Lemma for_each_invariant {A S} (body : S → A → result S)
    (I : list A → S → Prop) (l : list A) :
  (∀ pre x post st, l = pre ++ x :: post → I pre st →
     ∃ st', body st x = Ok st' ∧ I (pre ++ [x]) st') →
  ∀ st, I [] st → ∃ st', for_each body l st = Ok st' ∧ I l st'.
Proof.
  intros Hstep.
  assert (H : ∀ post pre st, l = pre ++ post → I pre st →
            ∃ st', for_each body post st = Ok st' ∧ I l st').
  { induction post as [|x post IH]; intros pre st Hl HI.
    - rewrite app_nil_r in Hl. subst. simpl. eauto.
    - destruct (Hstep pre x post st Hl HI) as (st1 & Hb & HI1).
      rewrite for_each_cons, Hb. simpl.
      apply (IH (pre ++ [x])); [|done]. by rewrite <- app_assoc. }
  intros st HI. by apply (H l []).
Qed.

Lemma latency_of_insert g src dst latency adj a b :
  g !! src = Some adj →
  latency_of (<[src := <[dst := latency]> adj]> g) a b =
  if decide (a = src ∧ b = dst) then Some latency else latency_of g a b.
Proof.
  intros Hsrc. unfold latency_of.
  destruct (decide (a = src)) as [->|Hne].
  - rewrite lookup_insert_eq, Hsrc. simpl.
    destruct (decide (b = dst)) as [->|Hne].
    + rewrite lookup_insert_eq. by rewrite decide_True.
    + rewrite lookup_insert_ne by done. rewrite decide_False; [done|]. by intros [_ ?].
  - rewrite lookup_insert_ne by done. rewrite decide_False; [done|]. by intros [? _].
Qed.

Lemma empty_graph_dom (nodes : list string) :
  dom (list_to_map ((λ node, (node, ∅)) <$> nodes) : gmap string (gmap string num))
  = list_to_set nodes.
Proof.
  rewrite dom_list_to_map_L. f_equal.
  induction nodes as [|x nodes IH]; simpl; [done|by f_equal].
Qed.

Lemma empty_graph_latency (nodes : list string) a b :
  latency_of (list_to_map ((λ node, (node, ∅)) <$> nodes)) a b = None.
Proof.
  unfold latency_of.
  destruct (list_to_map _ !! a) as [adj|] eqn:Ha; simpl; [|done].
  apply elem_of_list_to_map_2, list_elem_of_fmap in Ha as (x & [= _ ->] & _).
  apply lookup_empty.
Qed.

Lemma probes_inv_weaken nodes (probed probed' : string → string → Prop) g log :
  (∀ a b, probed a b → probed' a b) →
  probes_inv nodes probed g log → probes_inv nodes probed' g log.
Proof. intros Hsub [H1 H2 H3 H4]. split; eauto. Qed.

Section NetworkFacts.

Context {World : Type}.
Variable tailscale_ping : World → string → run * World.
Variable search_latency : string → option num.

Local Abbreviation run_probe := (probe tailscale_ping search_latency).
Local Abbreviation run_probe_from := (probe_from tailscale_ping search_latency).
Local Abbreviation run_build := (build tailscale_ping search_latency).
Local Abbreviation fails := (ping_fails tailscale_ping search_latency).

(** The three ways a probe ends (lines 29-43). *)
Lemma probe_cases src dst (n : net World) :
  ∃ n', run_probe src dst n = Ok n' ∧
    ((net_graph n' = net_graph n ∧
      (net_log n' = net_log n ++ [LogNoAnswer src dst] ∨
       net_log n' = net_log n ++ [LogError src dst])) ∨
     (∃ latency adj,
        ¬ fails (net_world n) dst ∧ net_graph n !! src = Some adj ∧
        net_graph n' = <[src := <[dst := latency]> adj]> (net_graph n) ∧
        net_log n' = net_log n ++ [LogLatency src dst latency])).
Proof.
  unfold probe, ping_fails.
  destruct (tailscale_ping (net_world n) dst) as [[stdout|e] w]; simpl.
  - destruct (search_latency stdout) as [latency|] eqn:Hsearch.
    + unfold getitem. destruct (net_graph n !! src) as [adj|] eqn:Hsrc; simpl.
      * eexists. split; [done|]. right. exists latency, adj. simpl.
        split_and!; done.
      * eexists. split; [done|]. left. simpl. eauto.
    + eexists. split; [done|]. left. simpl. eauto.
  - eexists. split; [done|]. left. simpl. eauto.
Qed.

Lemma probe_failed src dst (n : net World) :
  fails (net_world n) dst →
  ∃ n', run_probe src dst n = Ok n' ∧ net_graph n' = net_graph n.
Proof.
  intros Hfail. destruct (probe_cases src dst n) as (n' & Hp & [[Hg _]|H]).
  - by exists n'.
  - by destruct H as (? & ? & ? & _).
Qed.

Lemma probe_dom src dst (n n' : net World) :
  run_probe src dst n = Ok n' → dom (net_graph n') = dom (net_graph n).
Proof.
  intros Hp. destruct (probe_cases src dst n) as (n1 & Hp1 & H).
  rewrite Hp in Hp1. injection Hp1 as <-.
  destruct H as [[-> _]|(latency & adj & _ & Hsrc & -> & _)]; [done|].
  by rewrite dom_insert_lookup_L.
Qed.

Lemma probe_inv nodes (probed : string → string → Prop) src dst (n : net World) :
  probes_inv nodes probed (net_graph n) (net_log n) → ¬ probed src dst →
  ∃ n', run_probe src dst n = Ok n' ∧
    probes_inv nodes (λ a b, probed a b ∨ (a = src ∧ b = dst))
      (net_graph n') (net_log n').
Proof.
  intros [Hdom Hedge Hfail Hlogged] Hnew.
  assert (Hnone : latency_of (net_graph n) src dst = None).
  { destruct (latency_of (net_graph n) src dst) as [l|] eqn:Hl; [|done].
    apply Hedge, Hlogged in Hl. done. }
  destruct (probe_cases src dst n) as (n' & Hp & H). exists n'. split; [done|].
  destruct H as [[-> Hlog]|(latency & adj & _ & Hsrc & -> & ->)].
  - assert (∃ line, net_log n' = net_log n ++ [line] ∧ log_pair line = (src, dst) ∧
              ∀ a b l, line ≠ LogLatency a b l) as (line & -> & Hpair & Hline).
    { destruct Hlog as [->| ->]; eexists; by split_and!. }
    split.
    + done.
    + intros a b l. rewrite elem_of_app, list_elem_of_singleton, <- Hedge.
      split; [intros [?|?]; [done|]|by left]. by edestruct Hline.
    + intros a b [Hin|Hin].
      * apply elem_of_app in Hin as [Hin| <-%list_elem_of_singleton]; [by eauto|].
        simpl in Hpair. by injection Hpair as -> ->.
      * apply elem_of_app in Hin as [Hin| <-%list_elem_of_singleton]; [by eauto|].
        simpl in Hpair. by injection Hpair as -> ->.
    + intros l [Hin| ->%list_elem_of_singleton]%elem_of_app; [left; by apply Hlogged|].
      right. by rewrite Hpair.
  - split.
    + by rewrite dom_insert_lookup_L.
    + intros a b l. rewrite latency_of_insert by done.
      rewrite elem_of_app, list_elem_of_singleton. case_decide as Hab.
      * destruct Hab as [-> ->]. split.
        -- intros [Hin|[= <-]]; [|done]. by apply Hlogged in Hin.
        -- intros [= <-]. by right.
      * rewrite Hedge. split; [|by left].
        intros [?|[= -> -> _]]; [done|]. by destruct Hab.
    + intros a b Hin. rewrite latency_of_insert by done.
      assert (LogNoAnswer a b ∈ net_log n ∨ LogError a b ∈ net_log n) as Hold.
      { destruct Hin as [Hin|Hin];
          apply elem_of_app in Hin as [Hin|[=]%list_elem_of_singleton]; eauto. }
      rewrite decide_False; [by apply Hfail|].
      intros [-> ->]. destruct Hold as [H|H]; by apply Hlogged in H.
    + intros l [Hin| ->%list_elem_of_singleton]%elem_of_app; [left; by apply Hlogged|].
      by right.
Qed.

(** The probes from one node (lines 26-43). *)
Lemma probe_from_inv nodes (probed : string → string → Prop) src (n : net World) :
  NoDup nodes → (∀ b, ¬ probed src b) →
  probes_inv nodes probed (net_graph n) (net_log n) →
  ∃ n', run_probe_from nodes n src = Ok n' ∧
    probes_inv nodes (λ a b, probed a b ∨ a = src) (net_graph n') (net_log n').
Proof.
  intros Hnd Hsrc Hinv.
  destruct (for_each_invariant
    (λ n dst, if decide (src = dst) then Ok n else run_probe src dst n)
    (λ pre n, probes_inv nodes (λ a b, probed a b ∨ (a = src ∧ b ∈ pre))
                (net_graph n) (net_log n)) nodes) with (st := n)
    as (n' & Hrun & Hinv').
  - intros pre dst post n1 Hsplit Hinv1.
    assert (Hfresh : dst ∉ pre).
    { rewrite Hsplit in Hnd. apply NoDup_app in Hnd as (_ & Hnd & _).
      intros Hin. apply (Hnd dst Hin). left. }
    case_decide as Heq.
    + exists n1. split; [done|]. eapply probes_inv_weaken; [|done].
      intros a b [?|[-> Hb]]; [by left|right]. split; [done|].
      apply elem_of_app. by left.
    + destruct (probe_inv _ _ src dst n1 Hinv1) as (n2 & Hp & Hinv2).
      { intros [?|[_ ?]]; [by eapply Hsrc|done]. }
      exists n2. split; [done|]. eapply probes_inv_weaken; [|done].
      intros a b [[?|[-> Hb]]|[-> ->]]; [by left|right..].
      * split; [done|]. apply elem_of_app. by left.
      * split; [done|]. apply elem_of_app. right. left.
  - eapply probes_inv_weaken; [|done]. intros a b ?. by left.
  - exists n'. split; [done|]. eapply probes_inv_weaken; [|done].
    intros a b [?|[-> _]]; eauto.
Qed.

(** All the probes (lines 23-45), when the nodes are distinct. *)
Lemma build_inv nodes (w : World) :
  NoDup nodes →
  ∃ n, run_build nodes w = Ok n ∧
    probes_inv nodes (λ a _, a ∈ nodes) (net_graph n) (net_log n).
Proof.
  intros Hnd. unfold build.
  apply (for_each_invariant (run_probe_from nodes)
    (λ pre n, probes_inv nodes (λ a _, a ∈ pre) (net_graph n) (net_log n))).
  - intros pre src post n Hsplit Hinv.
    assert (Hfresh : src ∉ pre).
    { rewrite Hsplit in Hnd. apply NoDup_app in Hnd as (_ & Hnd & _).
      intros Hin. apply (Hnd src Hin). left. }
    destruct (probe_from_inv nodes _ src n Hnd (λ _, Hfresh) Hinv)
      as (n' & Hrun & Hinv').
    exists n'. split; [done|]. eapply probes_inv_weaken; [|done].
    intros a b [?| ->]; apply elem_of_app; [by left|right; left].
  - split; simpl.
    + apply empty_graph_dom.
    + intros a b l. rewrite empty_graph_latency. split; [|done].
      by intros ?%elem_of_nil.
    + intros a b _. apply empty_graph_latency.
    + by intros l ?%elem_of_nil.
Qed.

(** All the probes, whatever the nodes: the keys stay those of line 23. *)
Lemma build_dom nodes (w : World) :
  ∃ n, run_build nodes w = Ok n ∧ dom (net_graph n) = list_to_set nodes.
Proof.
  unfold build.
  apply (for_each_invariant (run_probe_from nodes)
    (λ _ n, dom (net_graph n) = list_to_set nodes)); [|apply empty_graph_dom].
  intros _ src _ n _ Hdom. unfold probe_from.
  apply (for_each_invariant
    (λ n dst, if decide (src = dst) then Ok n else run_probe src dst n)
    (λ _ n, dom (net_graph n) = list_to_set nodes)); [|done].
  intros _ dst _ n1 _ Hdom1. case_decide; [by eauto|].
  destruct (probe_cases src dst n1) as (n2 & Hp & _).
  exists n2. split; [done|]. by rewrite (probe_dom _ _ _ _ Hp).
Qed.

End NetworkFacts.

(** C3. Whatever the probes answer, build returns a graph whose keys are
    exactly the input nodes. *)
Theorem build_keys {World : Type} (tailscale_ping : World → string → run * World)
    (search_latency : string → option num) (nodes : list string) (w : World) :
  ∃ n, build tailscale_ping search_latency nodes w = Ok n ∧
    ∀ node, is_Some (net_graph n !! node) ↔ node ∈ nodes.
Proof.
  destruct (build_dom tailscale_ping search_latency nodes w) as (n & Hrun & Hdom).
  exists n. split; [done|]. intros node.
  by rewrite <- elem_of_dom, Hdom, elem_of_list_to_set.
Qed.

(** C4. A probe that fails, the process raising or its output giving no
    latency, leaves the whole graph as it was: no edge for its pair, no
    change for another pair.  build returns whatever the probes do; and
    when the nodes are distinct, the pairs for which a failure is logged
    have no edge, and the edges are exactly the pairs, with their latency,
    for which a success is logged. *)
Theorem failed_probe_absorbed {World : Type}
    (tailscale_ping : World → string → run * World)
    (search_latency : string → option num) :
  (∀ src dst (n : net World),
     ping_fails tailscale_ping search_latency (net_world n) dst →
     ∃ n', probe tailscale_ping search_latency src dst n = Ok n' ∧
           net_graph n' = net_graph n) ∧
  (∀ nodes w,
     ∃ n, build tailscale_ping search_latency nodes w = Ok n ∧
       (NoDup nodes → ∀ src dst,
          (LogNoAnswer src dst ∈ net_log n ∨ LogError src dst ∈ net_log n →
           latency_of (net_graph n) src dst = None) ∧
          (∀ latency, latency_of (net_graph n) src dst = Some latency ↔
                      LogLatency src dst latency ∈ net_log n))).
Proof.
  split.
  - apply probe_failed.
  - intros nodes w.
    destruct (build_dom tailscale_ping search_latency nodes w) as (n & Hrun & _).
    exists n. split; [done|]. intros Hnd src dst.
    destruct (build_inv tailscale_ping search_latency nodes w Hnd)
      as (n' & Hrun' & [_ Hedge Hfail _]).
    rewrite Hrun in Hrun'. injection Hrun' as <-.
    split; [apply Hfail|]. intros latency. by rewrite Hedge.
Qed.

(** * The theorems at work on concrete inputs *)




Lemma two_path_run fuel :
  (4 ≤ fuel)%nat →
  dijkstra fuel two_path_graph "A" = Ok (two_path_distances, two_path_previous).
Proof.
  intros Hfuel. eapply dijkstra_loop_fuel; [|done|exact Hfuel]. by vm_compute.
Qed.


Lemma reconstruct_path_unreached_witness :
  reconstruct_path 1 {[ "C"%string := None ]} (Some "C"%string) = Ok ["C"%string].
Proof.
  apply (reconstruct_path_unreached {[ "C"%string := None ]} "C" 0).
  by vm_compute.
Defined.


(** build on two nodes: the probe of ["b"] raises, the probe of ["a"]
    answers. *)
Example build_two_nodes :
  ∃ n, build example_ping example_search ["a"; "b"]%string 0%nat = Ok n ∧
    latency_of (net_graph n) "a" "b" = None ∧
    latency_of (net_graph n) "b" "a" = Some (Fin 5) ∧
    net_log n = [LogError "a" "b"; LogLatency "b" "a" (Fin 5)]%string ∧
    net_world n = 2%nat.
Proof. eexists. split; [by vm_compute|]. by vm_compute. Qed.

(** The chain scenario of the specification: A -> B (5), B -> C (3). *)
Example chain_scenario :
  let g : gmap string (gmap string num) :=
    {[ "A" := {[ "B" := Fin 5 ]}; "B" := {[ "C" := Fin 3 ]}; "C" := ∅ ]}%string in
  ∃ P, dijkstra 3 g "A" = Ok ({[ "A" := Fin 0; "B" := Fin 5; "C" := Fin 8 ]}%string, P) ∧
       reconstruct_path 3 P (Some "C"%string) = Ok ["A"; "B"; "C"]%string.
Proof. eexists. split; by vm_compute. Qed.

(** A node that no path reaches keeps the infinity, and its reconstructed
    path is the node alone. *)
Example disconnected_scenario :
  let g : gmap string (gmap string num) :=
    {[ "A" := {[ "B" := Fin 5 ]}; "B" := ∅; "C" := ∅ ]}%string in
  ∃ D P, dijkstra 2 g "A" = Ok (D, P) ∧ D !! "C"%string = Some Inf ∧
         reconstruct_path 1 P (Some "C"%string) = Ok ["C"%string].
Proof. do 2 eexists. split_and!; by vm_compute. Qed.

(** An edge whose target is not a key of the graph ends dijkstra with the
    [KeyError] of [distances[neighbor]]; so does a source that is not a key,
    with the [KeyError] of [graph[current_node]]. *)
Example dangling_edge_raises :
  dijkstra 1 {[ "A"%string := {[ "B"%string := Fin 1 ]} ]} "A" = Raise (KeyError "B").
Proof. by vm_compute. Qed.

Example unknown_source_raises :
  dijkstra 1 {[ "A"%string := ∅ ]} "Z" = Raise (KeyError "Z").
Proof. by vm_compute. Qed.

(** * Further properties of dijkstra: any weights *)

Section Tables.

Variable g : gmap string (gmap string num).
Variable s : string.
Hypothesis Hsource : is_Some (g !! s).

Lemma init_table_inv : table_inv g s (init g s).
Proof.
  destruct Hsource as [adj Hadj]. split; simpl.
  - rewrite dom_insert_lookup_L, dom_fmap_L; [done|].
    by rewrite lookup_fmap, Hadj.
  - apply dom_fmap_L.
  - intros v dv HDv Hfin.
    destruct (init_lookup g s v dv HDv) as [[-> ->]|[_ ->]]; [constructor|done].
  - intros d x [= -> ->]%list_elem_of_singleton. split; [constructor|].
    rewrite lookup_insert_eq. eauto.
  - intros v u. rewrite lookup_fmap. by destruct (g !! v).
Qed.

Lemma table_inv_set_queue st q :
  table_inv g s st → (∀ x, x ∈ q → x ∈ priority_queue st) →
  table_inv g s (set_queue st q).
Proof.
  intros [H1 H2 H3 H4 H5] Hsub. split; simpl; try done.
  intros d x Hx. by apply H4, Hsub.
Qed.

(** One edge relaxed: the tables stay well-formed, or the target is not a
    key and its [KeyError] is raised. *)
Lemma relax_table_inv u d st v w :
  table_inv g s st → walk g s u d → edge g u v w →
  match relax u d st (v, w) with
  | Ok st' => table_inv g s st'
  | Raise e => e = KeyError v ∧ g !! v = None
  | OutOfFuel => False
  end.
Proof.
  intros Hinv Hwalk He. pose proof Hinv as [Hdd Hdp Hw Hq Hp].
  unfold relax, getitem.
  destruct (distances st !! v) as [dv|] eqn:HDv; simpl.
  2: { split; [done|]. apply not_elem_of_dom. rewrite <- Hdd.
       by apply not_elem_of_dom. }
  destruct (Num.ltb (d + w) dv) eqn:Hlt; [|done].
  assert (Hfin : (d + w < Inf)%num).
  { eapply NumFacts.lt_le_trans; [exact Hlt|apply NumFacts.le_Inf]. }
  assert (Hkey : is_Some (g !! v)).
  { apply elem_of_dom. rewrite <- Hdd. apply elem_of_dom. eauto. }
  split; simpl.
  - by rewrite dom_insert_lookup_L.
  - rewrite dom_insert_lookup_L; [done|].
    apply elem_of_dom. rewrite Hdp. by apply elem_of_dom.
  - intros x dx. destruct (decide (x = v)) as [->|Hne].
    + rewrite lookup_insert_eq. intros [= <-] _. by eapply walk_step.
    + rewrite lookup_insert_ne by done. apply Hw.
  - unfold heappush. intros d' x [[= -> ->]|Hin]%elem_of_cons.
    + split; [by eapply walk_step|]. rewrite lookup_insert_eq. eauto.
    + destruct (Hq d' x Hin) as [? ?]. split; [done|].
      destruct (decide (x = v)) as [->|Hne].
      * rewrite lookup_insert_eq. eauto.
      * by rewrite lookup_insert_ne.
  - intros x u'. destruct (decide (x = v)) as [->|Hne].
    + rewrite !lookup_insert_eq. intros [= <-]. eauto.
    + rewrite !lookup_insert_ne by done. intros Hx.
      destruct (Hp x u' Hx) as [Hedge (dx & HDx & Hdx)]. split; [done|].
      by exists dx.
Qed.

Lemma relax_all_table_inv u d todo : ∀ st,
  (∀ v w, (v, w) ∈ todo → edge g u v w) → walk g s u d → table_inv g s st →
  match for_each (relax u d) todo st with
  | Ok st' => table_inv g s st'
  | Raise e => ∃ v w, edge g u v w ∧ e = KeyError v ∧ g !! v = None
  | OutOfFuel => False
  end.
Proof.
  induction todo as [|[v w] todo IH]; intros st Hedges Hwalk Hinv; [done|].
  rewrite for_each_cons.
  pose proof (relax_table_inv u d st v w Hinv Hwalk (Hedges v w ltac:(left))) as Hr.
  destruct (relax u d st (v, w)) as [st1|e|]; simpl; [| |done].
  - apply IH; [|done..]. intros v' w' Hin. apply Hedges. by right.
  - destruct Hr as [-> Hv]. exists v, w. split_and!; [|done..].
    apply Hedges. left.
Qed.

Lemma iteration_table_inv st d u q :
  table_inv g s st → heappop (priority_queue st) = Some ((d, u), q) →
  match iteration g d u (set_queue st q) with
  | Ok st' => table_inv g s st'
  | Raise e => ∃ u' v w, edge g u' v w ∧ e = KeyError v ∧ g !! v = None
  | OutOfFuel => False
  end.
Proof.
  intros Hinv Hpop. destruct (heappop_spec _ _ _ Hpop) as [Hperm _].
  assert (Hin : (d, u) ∈ priority_queue st) by (rewrite Hperm; left).
  destruct (ti_queue _ _ _ Hinv d u Hin) as [Hwalk [du HDu]].
  assert (Hinv1 : table_inv g s (set_queue st q)).
  { apply table_inv_set_queue; [done|]. intros x Hx. rewrite Hperm. by right. }
  unfold iteration, getitem. simpl. rewrite HDu. simpl.
  destruct (Num.gtb d du); [done|].
  destruct (g !! u) as [adj|] eqn:Hgu; simpl.
  2: { exfalso. apply not_elem_of_dom in Hgu. apply Hgu.
       rewrite <- (ti_dom_dist _ _ _ Hinv). apply elem_of_dom. eauto. }
  pose proof (relax_all_table_inv u d (map_to_list adj) (set_queue st q)) as Hr.
  destruct (for_each (relax u d) (map_to_list adj) (set_queue st q)) as [st'|e|].
  - apply Hr; [|done..]. intros v w Hvw. exists adj.
    split; [done|by apply elem_of_map_to_list].
  - exists u. apply Hr; [|done..]. intros v w Hvw. exists adj.
    split; [done|by apply elem_of_map_to_list].
  - apply Hr; [|done..]. intros v w Hvw. exists adj.
    split; [done|by apply elem_of_map_to_list].
Qed.

Lemma dijkstra_loop_tables fuel : ∀ st,
  table_inv g s st →
  match dijkstra_loop fuel g st with
  | Ok tables =>
      ∃ st', table_inv g s st' ∧ distances st' = tables.1 ∧
             previous_nodes st' = tables.2
  | Raise e => ∃ u v w, edge g u v w ∧ e = KeyError v ∧ g !! v = None
  | OutOfFuel => True
  end.
Proof.
  induction fuel as [|fuel IH]; intros st Hinv; simpl.
  - destruct (heappop (priority_queue st)) as [[[d u] q]|]; [done|]. by exists st.
  - destruct (heappop (priority_queue st)) as [[[d u] q]|] eqn:Hpop;
      [|by exists st].
    pose proof (iteration_table_inv st d u q Hinv Hpop) as Hit.
    destruct (iteration g d u (set_queue st q)) as [st'|e|]; simpl; [|done..].
    by apply IH.
Qed.

End Tables.

(** A source that is not a key: the first iteration raises at
    [graph[current_node]]. *)
Lemma dijkstra_unknown_source g s fuel :
  g !! s = None → dijkstra (S fuel) g s = Raise (KeyError s).
Proof.
  intros Hs. unfold dijkstra, init. simpl. unfold iteration, getitem. simpl.
  rewrite lookup_insert_eq. simpl. by rewrite Hs.
Qed.

Lemma dijkstra_tables g s fuel D P :
  dijkstra fuel g s = Ok (D, P) →
  is_Some (g !! s) ∧
  ∃ st, table_inv g s st ∧ distances st = D ∧ previous_nodes st = P.
Proof.
  intros Hrun.
  assert (Hs : is_Some (g !! s)).
  { destruct (g !! s) eqn:Hs; [by eauto|]. destruct fuel; [done|].
    by rewrite dijkstra_unknown_source in Hrun. }
  split; [done|]. unfold dijkstra in Hrun.
  pose proof (dijkstra_loop_tables g s fuel (init g s) (init_table_inv g s Hs)) as H.
  by rewrite Hrun in H.
Qed.


(** X1. A source that is not a key of the graph makes dijkstra raise the
    [KeyError] of the source at its first iteration. *)
Theorem dijkstra_unknown_source_raises g s fuel :
  g !! s = None → dijkstra (S fuel) g s = Raise (KeyError s).
Proof. apply dijkstra_unknown_source. Qed.

Lemma dijkstra_unknown_source_raises_witness :
  dijkstra 1 two_path_graph "Z" = Raise (KeyError "Z").
Proof. apply (dijkstra_unknown_source_raises two_path_graph "Z" 0). by vm_compute. Defined.

Lemma dijkstra_raise_cases g s fuel e :
  dijkstra fuel g s = Raise e →
  (g !! s = None ∧ e = KeyError s) ∨
  (∃ u k w, edge g u k w ∧ g !! k = None ∧ e = KeyError k).
Proof.
  intros Hrun. destruct (g !! s) as [adj|] eqn:Hs.
  - right. unfold dijkstra in Hrun.
    pose proof (dijkstra_loop_tables g s fuel (init g s)
                  (init_table_inv g s (mk_is_Some _ _ Hs))) as H.
    rewrite Hrun in H. destruct H as (u & k & w & He & -> & Hk). by exists u, k, w.
  - left. split; [done|]. destruct fuel; [done|].
    rewrite dijkstra_unknown_source in Hrun by done. by injection Hrun.
Qed.

(** X2. Whatever the weights, the only exceptions dijkstra raises are the
    [KeyError] of a source that is not a key and the [KeyError] of an edge
    target that is not a key. *)
Theorem dijkstra_raises_only_key_errors g s fuel e :
  dijkstra fuel g s = Raise e →
  (g !! s = None ∧ e = KeyError s) ∨
  (∃ u k w, edge g u k w ∧ g !! k = None ∧ e = KeyError k).
Proof. apply dijkstra_raise_cases. Qed.

Lemma dijkstra_raises_only_key_errors_witness :
  (dangling_graph !! "A"%string = None ∧ KeyError "B" = KeyError "A") ∨
  (∃ u k w, edge dangling_graph u k w ∧ dangling_graph !! k = None ∧
            KeyError "B" = KeyError k).
Proof.
  apply (dijkstra_raises_only_key_errors dangling_graph "A" 1). by vm_compute.
Defined.




(** X5. Whatever the weights, the two tables dijkstra returns have the keys
    of the graph; a predecessor is the origin of an edge into the node, whose
    distance is then finite; a node left at the infinity has no
    predecessor. *)
Theorem dijkstra_tables_shape g s fuel D P :
  dijkstra fuel g s = Ok (D, P) →
  dom D = dom g ∧ dom P = dom g ∧
  (∀ v u, P !! v = Some (Some u) →
     (∃ w, edge g u v w) ∧ ∃ dv, D !! v = Some dv ∧ (dv < Inf)%num) ∧
  (∀ v, D !! v = Some Inf → P !! v = Some None).
Proof.
  intros Hrun.
  destruct (dijkstra_tables g s fuel D P Hrun)
    as (_ & st & [Hdd Hdp _ _ Hp] & <- & <-).
  split_and!; [done..|].
  intros v HDv.
  assert (is_Some (previous_nodes st !! v)) as [[u|] HPv]; [|exfalso|done].
  { apply elem_of_dom. rewrite Hdp, <- Hdd. apply elem_of_dom. eauto. }
  destruct (Hp v u HPv) as (_ & dv & HDv' & Hfin).
  rewrite HDv in HDv'. by injection HDv' as <-.
Qed.

Lemma dijkstra_tables_shape_witness :
  dom two_path_distances = dom two_path_graph ∧
  dom two_path_previous = dom two_path_graph ∧
  (∀ v u, two_path_previous !! v = Some (Some u) →
     (∃ w, edge two_path_graph u v w) ∧
     ∃ dv, two_path_distances !! v = Some dv ∧ (dv < Inf)%num) ∧
  (∀ v, two_path_distances !! v = Some Inf → two_path_previous !! v = Some None).
Proof.
  apply (dijkstra_tables_shape two_path_graph "A" 4). by apply two_path_run.
Defined.

(** * Further properties of reconstruct_path *)

Lemma reconstruct_loop_fuel prev_nodes n : ∀ end_ acc r m,
  reconstruct_loop n prev_nodes end_ acc = r → r ≠ OutOfFuel → (n ≤ m)%nat →
  reconstruct_loop m prev_nodes end_ acc = r.
Proof.
  induction n as [|n IH]; intros [v|] acc r m; simpl.
  - by intros <-.
  - intros <- _ _. by destruct m.
  - intros Hr Hne Hle. destruct m as [|m]; [lia|]. simpl.
    destruct (getitem prev_nodes v) as [nxt|e|]; simpl in *; [|done..].
    apply IH; [done..|lia].
  - intros <- _ _. by destruct m.
Qed.

Lemma reconstruct_loop_step prev_nodes n v acc :
  reconstruct_loop (S n) prev_nodes (Some v) acc
  = getitem prev_nodes v ≫= λ nxt, reconstruct_loop n prev_nodes nxt (v :: acc).
Proof. done. Qed.

Lemma back_run_loop prev_nodes v l missing :
  back_run prev_nodes v l missing →
  ∀ acc, reconstruct_loop (S (length l)) prev_nodes (Some v) acc
         = back_outcome l missing acc.
Proof.
  induction 1 as [v Hv|v Hv|v u l missing Hv _ IH]; intros acc.
  - simpl. unfold getitem. by rewrite Hv.
  - simpl. unfold getitem. by rewrite Hv.
  - rewrite length_app, Nat.add_1_r, reconstruct_loop_step.
    unfold getitem. rewrite Hv.
    cbn [mbind result_bind]. rewrite IH.
    destruct missing; simpl; [done|]. by rewrite <- app_assoc.
Qed.

Lemma loop_back_run prev_nodes fuel : ∀ v acc r,
  reconstruct_loop fuel prev_nodes (Some v) acc = r → r ≠ OutOfFuel →
  ∃ l missing, back_run prev_nodes v l missing ∧ r = back_outcome l missing acc.
Proof.
  induction fuel as [|fuel IH]; intros v acc r; simpl; [by intros <-|].
  unfold getitem. destruct (prev_nodes !! v) as [[u|]|] eqn:Hv; simpl.
  - intros Hr Hne. destruct (IH u (v :: acc) r Hr Hne) as (l & missing & Hl & ->).
    exists (l ++ [v]), missing. split; [by eapply back_step|].
    destruct missing; simpl; [done|]. by rewrite <- app_assoc.
  - intros <- _. exists [v], None. split; [by constructor|]. by destruct fuel.
  - intros <- _. exists [], (Some v). split; [by constructor|done].
Qed.

Lemma back_run_fun prev_nodes v l missing :
  back_run prev_nodes v l missing →
  ∀ l' missing', back_run prev_nodes v l' missing' → l = l' ∧ missing = missing'.
Proof.
  induction 1 as [v Hv|v Hv|v u l missing Hv _ IH]; intros l' missing';
    destruct 1 as [v Hv'|v Hv'|v u' l' missing' Hv' Hrun']; try congruence;
    try done.
  rewrite Hv in Hv'. injection Hv' as <-.
  destruct (IH _ _ Hrun') as [-> ->]. done.
Qed.

Lemma back_run_prefix prev_nodes v l missing :
  back_run prev_nodes v l missing →
  ∀ i x, l !! i = Some x → back_run prev_nodes x (take (S i) l) missing.
Proof.
  induction 1 as [v Hv|v Hv|v u l missing Hv Hrun IH]; intros i x.
  - intros [-> ->]%list_lookup_singleton_Some. by constructor.
  - by rewrite lookup_nil.
  - intros [[Hlt Hx]|[-> <-]]%lookup_snoc_Some.
    + rewrite take_app_le by lia. by apply IH.
    + rewrite take_ge by (rewrite length_app; simpl; lia). by eapply back_step.
Qed.

Lemma back_run_NoDup prev_nodes v l missing :
  back_run prev_nodes v l missing → NoDup l.
Proof.
  intros Hrun. apply NoDup_alt. intros i j x Hi Hj.
  pose proof (back_run_prefix _ _ _ _ Hrun i x Hi) as Hri.
  pose proof (back_run_prefix _ _ _ _ Hrun j x Hj) as Hrj.
  destruct (back_run_fun _ _ _ _ Hri _ _ Hrj) as [Heq _].
  apply (f_equal length) in Heq.
  apply lookup_lt_Some in Hi, Hj.
  rewrite !length_take_le in Heq by lia. lia.
Qed.

Lemma back_run_keys prev_nodes v l missing :
  back_run prev_nodes v l missing → ∀ x, x ∈ l → is_Some (prev_nodes !! x).
Proof.
  induction 1 as [v Hv|v Hv|v u l missing Hv _ IH]; intros x.
  - intros ->%list_elem_of_singleton. eauto.
  - by intros ?%elem_of_nil.
  - intros [?| ->%list_elem_of_singleton]%elem_of_app; eauto.
Qed.

Lemma back_run_length prev_nodes v l missing :
  back_run prev_nodes v l missing → (length l ≤ size prev_nodes)%nat.
Proof.
  intros Hrun. rewrite <- size_dom.
  apply (submseteq_length l (elements (dom prev_nodes))).
  apply NoDup_submseteq; [by eapply back_run_NoDup|].
  intros x Hx. apply elem_of_elements, elem_of_dom. by eapply back_run_keys.
Qed.

Lemma back_run_last prev_nodes v l missing :
  back_run prev_nodes v l missing → l = [] ∨ last l = Some v.
Proof.
  destruct 1; [by right|by left|right; apply last_snoc].
Qed.

Lemma back_run_head prev_nodes v l :
  back_run prev_nodes v l None →
  ∃ root, head l = Some root ∧ prev_nodes !! root = Some None.
Proof.
  remember None as missing eqn:Hm.
  induction 1 as [v Hv|v Hv|v u l missing Hv _ IH]; [by exists v|done|].
  destruct (IH Hm) as (root & Hhd & Hroot). exists root. split; [|done].
  by destruct l.
Qed.

Lemma back_run_links prev_nodes v l missing :
  back_run prev_nodes v l missing →
  ∀ i x y, l !! i = Some x → l !! S i = Some y → prev_nodes !! y = Some (Some x).
Proof.
  induction 1 as [v Hv|v Hv|v u l missing Hv Hrun IH]; intros i x y.
  - by rewrite (lookup_ge_None_2 [v] (S i)) by (simpl; lia).
  - by rewrite lookup_nil.
  - intros Hx [[Hlt Hy]|[Hlen <-]]%lookup_snoc_Some.
    + rewrite lookup_app_l in Hx by lia. by eapply IH.
    + rewrite lookup_app_l in Hx by lia.
      destruct (back_run_last _ _ _ _ Hrun) as [->|Hlast]; [done|].
      rewrite last_lookup, <- Hlen in Hlast. simpl in Hlast.
      rewrite Hx in Hlast. by injection Hlast as ->.
Qed.

Lemma back_run_missing prev_nodes v l missing :
  back_run prev_nodes v l missing → ∀ key, missing = Some key →
  prev_nodes !! key = None ∧ (key = v ∨ ∃ x, prev_nodes !! x = Some (Some key)).
Proof.
  induction 1 as [v Hv|v Hv|v u l missing Hv _ IH]; intros key Hm; [done| |].
  - injection Hm as <-. split; [done|by left].
  - destruct (IH key Hm) as [Hnone Hcase]. split; [done|]. right.
    destruct Hcase as [->|Hx]; eauto.
Qed.

(** X8. The path reconstruct_path returns ends at the destination, starts
    at a node whose predecessor is [None], follows the back-links of the
    table, and visits no node twice; so it has no more nodes than the table
    has keys. *)
Theorem reconstruct_path_shape prev_nodes fuel v path :
  reconstruct_path fuel prev_nodes (Some v) = Ok path →
  last path = Some v ∧
  (∃ root, head path = Some root ∧ prev_nodes !! root = Some None) ∧
  (∀ i x y, path !! i = Some x → path !! S i = Some y →
            prev_nodes !! y = Some (Some x)) ∧
  NoDup path ∧ (length path ≤ size prev_nodes)%nat.
Proof.
  intros Hrun.
  destruct (loop_back_run prev_nodes fuel v [] _ Hrun)
    as (l & missing & Hl & Hout); [done|].
  destruct missing as [key|]; [done|]. simpl in Hout.
  rewrite app_nil_r in Hout. injection Hout as ->.
  split_and!.
  - destruct (back_run_last _ _ _ _ Hl) as [->|?]; [|done].
    by destruct (back_run_head _ _ _ Hl) as (? & ? & _).
  - by eapply back_run_head.
  - by eapply back_run_links.
  - by eapply back_run_NoDup.
  - by eapply back_run_length.
Qed.

Lemma reconstruct_path_shape_witness :
  last ["A"; "B"; "C"]%string = Some "C"%string ∧
  (∃ root, head ["A"; "B"; "C"]%string = Some root ∧
           two_path_previous !! root = Some None) ∧
  (∀ i x y, ["A"; "B"; "C"]%string !! i = Some x →
            ["A"; "B"; "C"]%string !! S i = Some y →
            two_path_previous !! y = Some (Some x)) ∧
  NoDup ["A"; "B"; "C"]%string ∧ (3 ≤ size two_path_previous)%nat.
Proof.
  apply (reconstruct_path_shape two_path_previous 3 "C"). by vm_compute.
Defined.

(** X9. A walk of reconstruct_path that ends, with a path or with an
    exception, ends within one iteration per key of the table and one more:
    past that bound the walk is in a cycle. *)
Theorem reconstruct_path_bounded prev_nodes fuel end_ r :
  reconstruct_path fuel prev_nodes end_ = r → r ≠ OutOfFuel →
  reconstruct_path (S (size prev_nodes)) prev_nodes end_ = r.
Proof.
  unfold reconstruct_path. destruct end_ as [v|]; [|by destruct fuel; intros <-].
  intros Hrun Hne.
  destruct (loop_back_run prev_nodes fuel v [] r Hrun Hne)
    as (l & missing & Hl & ->).
  eapply reconstruct_loop_fuel; [by apply back_run_loop|done|].
  apply le_n_S. by eapply back_run_length.
Qed.

Lemma reconstruct_path_bounded_witness :
  reconstruct_path (S (size two_path_previous)) two_path_previous (Some "C"%string)
  = Ok ["A"; "B"; "C"]%string.
Proof.
  apply (reconstruct_path_bounded two_path_previous 10); by vm_compute.
Defined.

(** X10. The only exception reconstruct_path raises is the [KeyError] of a
    key that is not in the table: the destination itself, or the predecessor
    recorded for a node of the table. *)
Theorem reconstruct_path_raises_only_key_errors prev_nodes fuel v e :
  reconstruct_path fuel prev_nodes (Some v) = Raise e →
  ∃ key, e = KeyError key ∧ prev_nodes !! key = None ∧
         (key = v ∨ ∃ x, prev_nodes !! x = Some (Some key)).
Proof.
  intros Hrun.
  destruct (loop_back_run prev_nodes fuel v [] _ Hrun)
    as (l & missing & Hl & Hout); [done|].
  destruct missing as [key|]; [|done]. injection Hout as ->.
  exists key. split; [done|]. by eapply back_run_missing.
Qed.

Lemma reconstruct_path_raises_only_key_errors_witness :
  ∃ key, KeyError "B" = KeyError key ∧ broken_table !! key = None ∧
         (key = "C"%string ∨ ∃ x, broken_table !! x = Some (Some key)).
Proof.
  apply (reconstruct_path_raises_only_key_errors broken_table 2 "C").
  by vm_compute.
Defined.

(** * dijkstra, then reconstruct_path *)





(** * Further properties of the graph built from the probes *)

Lemma edge_latency_of g u v w : edge g u v w ↔ latency_of g u v = Some w.
Proof.
  unfold edge, latency_of. split.
  - intros (adj & -> & Hv). done.
  - destruct (g !! u) as [adj|]; simpl; [|done]. intros Hv. by exists adj.
Qed.

Lemma bind_snoc {A B} (f : A → list B) (l : list A) (x : A) :
  (l ++ [x]) ≫= f = (l ≫= f) ++ f x.
Proof. by rewrite bind_app, bind_singleton. Qed.

Lemma elem_of_ordered_pairs nodes src dst :
  (src, dst) ∈ ordered_pairs nodes ↔ src ∈ nodes ∧ dst ∈ nodes ∧ src ≠ dst.
Proof.
  unfold ordered_pairs. rewrite list_elem_of_bind. split.
  - intros (a & (b & Hin & Hb)%list_elem_of_bind & Ha).
    case_decide; [by apply elem_of_nil in Hin|].
    by apply list_elem_of_singleton in Hin as [= -> ->].
  - intros (Hsrc & Hdst & Hne). exists src. split; [|done].
    apply list_elem_of_bind. exists dst. split; [|done].
    rewrite decide_False by done. left.
Qed.

Lemma ordered_pairs_NoDup nodes : NoDup nodes → NoDup (ordered_pairs nodes).
Proof.
  intros Hnd. unfold ordered_pairs. apply NoDup_bind; [| |done].
  - intros a1 a2 [x y] _ _ (b1 & H1 & _)%list_elem_of_bind
      (b2 & H2 & _)%list_elem_of_bind.
    repeat case_decide;
      try (by apply elem_of_nil in H1); try (by apply elem_of_nil in H2).
    apply list_elem_of_singleton in H1, H2. congruence.
  - intros a _. apply NoDup_bind; [| |done].
    + intros b1 b2 [x y] _ _ H1 H2.
      repeat case_decide;
      try (by apply elem_of_nil in H1); try (by apply elem_of_nil in H2).
      apply list_elem_of_singleton in H1, H2. congruence.
    + intros b _. case_decide; [constructor|apply NoDup_singleton].
Qed.

Section BuildFacts.

Context {World : Type}.
Variable tailscale_ping : World → string → run * World.
Variable search_latency : string → option num.

Local Abbreviation the_probe := (probe tailscale_ping search_latency).
Local Abbreviation the_probe_from := (probe_from tailscale_ping search_latency).
Local Abbreviation the_build := (build tailscale_ping search_latency).

(** What a probe changes: it logs one line about its pair, and the only
    edge it can set is that of its pair, with a latency the matcher read. *)
Lemma probe_effect src dst (n : net World) :
  ∃ n' line, the_probe src dst n = Ok n' ∧
    net_log n' = net_log n ++ [line] ∧ log_pair line = (src, dst) ∧
    dom (net_graph n') = dom (net_graph n) ∧
    ∀ a b l, latency_of (net_graph n') a b = Some l →
      latency_of (net_graph n) a b = Some l ∨
      (a = src ∧ b = dst ∧ ∃ stdout, search_latency stdout = Some l).
Proof.
  unfold probe.
  destruct (tailscale_ping (net_world n) dst) as [[stdout|e] w]; simpl.
  - destruct (search_latency stdout) as [latency|] eqn:Hsearch.
    + unfold getitem. destruct (net_graph n !! src) as [adj|] eqn:Hsrc; simpl.
      * do 2 eexists. split_and!; [done..| |]; simpl.
        -- by rewrite dom_insert_lookup_L.
        -- intros a b l. rewrite latency_of_insert by done.
           case_decide as Hab; [|by left].
           destruct Hab as [-> ->]. intros [= <-]. right. eauto.
      * do 2 eexists. split_and!; [done..|]. simpl. by left.
    + do 2 eexists. split_and!; [done..|]. simpl. by left.
  - do 2 eexists. split_and!; [done..|]. simpl. by left.
Qed.

Lemma probe_from_facts nodes src (n : net World) :
  src ∈ nodes → dom (net_graph n) = list_to_set nodes →
  edges_ok search_latency nodes (net_graph n) →
  ∃ n', the_probe_from nodes n src = Ok n' ∧
    dom (net_graph n') = list_to_set nodes ∧
    edges_ok search_latency nodes (net_graph n') ∧
    log_pair <$> net_log n' =
      (log_pair <$> net_log n) ++
      (dst ← nodes ; if decide (src = dst) then [] else [(src, dst)]).
Proof.
  intros Hsrc Hdom Hok.
  destruct (for_each_invariant
    (λ n dst, if decide (src = dst) then Ok n else the_probe src dst n)
    (λ pre n', dom (net_graph n') = list_to_set nodes ∧
               edges_ok search_latency nodes (net_graph n') ∧
               log_pair <$> net_log n' =
                 (log_pair <$> net_log n) ++
                 (dst ← pre ; if decide (src = dst) then [] else [(src, dst)]))
    nodes) with (st := n) as (n' & Hrun & Hinv).
  - intros pre dst post n1 Hsplit (Hdom1 & Hok1 & Hlog1).
    assert (Hdst : dst ∈ nodes).
    { rewrite Hsplit. apply elem_of_app. right. left. }
    rewrite bind_snoc. case_decide as Heq.
    + exists n1. split; [done|]. by rewrite app_nil_r.
    + destruct (probe_effect src dst n1)
        as (n2 & line & Hp & Hlog & Hpair & Hdom2 & Hlat).
      exists n2. split; [done|]. split_and!.
      * by rewrite Hdom2.
      * intros a b l Hl. destruct (Hlat a b l Hl) as [?|(-> & -> & ?)]; [by apply Hok1|].
        done.
      * rewrite Hlog, fmap_app, Hlog1, <- app_assoc. simpl. by rewrite Hpair.
  - split_and!; [done..|]. by rewrite app_nil_r.
  - by exists n'.
Qed.

Lemma build_facts nodes (w : World) :
  ∃ n, the_build nodes w = Ok n ∧
    dom (net_graph n) = list_to_set nodes ∧
    edges_ok search_latency nodes (net_graph n) ∧
    log_pair <$> net_log n = ordered_pairs nodes.
Proof.
  unfold build, ordered_pairs.
  apply (for_each_invariant (the_probe_from nodes)
    (λ pre n, dom (net_graph n) = list_to_set nodes ∧
              edges_ok search_latency nodes (net_graph n) ∧
              log_pair <$> net_log n =
                (src ← pre ; dst ← nodes ;
                 if decide (src = dst) then [] else [(src, dst)]))).
  - intros pre src post n Hsplit (Hdom & Hok & Hlog).
    assert (Hsrc : src ∈ nodes).
    { rewrite Hsplit. apply elem_of_app. right. left. }
    destruct (probe_from_facts nodes src n Hsrc Hdom Hok)
      as (n' & Hrun & Hdom' & Hok' & Hlog').
    exists n'. split; [done|]. split_and!; [done..|].
    by rewrite Hlog', Hlog, bind_snoc.
  - split_and!; simpl; [apply empty_graph_dom| |done].
    intros a b l. by rewrite empty_graph_latency.
Qed.

End BuildFacts.

(** X12. Whatever the nodes and the probes, the graph build returns is
    closed, every edge target is a key, and has no edge from a node to
    itself. *)
Theorem build_graph_closed {World : Type}
    (tailscale_ping : World → string → run * World)
    (search_latency : string → option num) (nodes : list string) (w : World) :
  ∃ n, build tailscale_ping search_latency nodes w = Ok n ∧
    closed (net_graph n) ∧ ∀ v latency, ¬ edge (net_graph n) v v latency.
Proof.
  destruct (build_facts tailscale_ping search_latency nodes w)
    as (n & Hrun & Hdom & Hok & _).
  exists n. split_and!; [done| |].
  - intros u v l He%edge_latency_of. destruct (Hok u v l He) as (_ & _ & Hv & _).
    apply elem_of_dom. rewrite Hdom. by apply elem_of_list_to_set.
  - intros v l He%edge_latency_of. by destruct (Hok v v l He) as (? & _).
Qed.


(** X14. build probes the ordered pairs of distinct nodes in the order of
    its two loops and logs one line for each: a pair has a line in the log
    exactly when its two nodes are distinct nodes of the list, and when the
    nodes of the list are distinct no pair is probed twice. *)
Theorem build_probe_order {World : Type}
    (tailscale_ping : World → string → run * World)
    (search_latency : string → option num) (nodes : list string) (w : World) :
  ∃ n, build tailscale_ping search_latency nodes w = Ok n ∧
    log_pair <$> net_log n = ordered_pairs nodes ∧
    (∀ src dst, (∃ line, line ∈ net_log n ∧ log_pair line = (src, dst)) ↔
                src ∈ nodes ∧ dst ∈ nodes ∧ src ≠ dst) ∧
    (NoDup nodes → NoDup (log_pair <$> net_log n)).
Proof.
  destruct (build_facts tailscale_ping search_latency nodes w)
    as (n & Hrun & _ & _ & Hlog).
  exists n. split_and!; [done..| |].
  - intros src dst. rewrite <- elem_of_ordered_pairs, <- Hlog, list_elem_of_fmap.
    split; intros (line & ? & ?); by exists line.
  - intros Hnd. rewrite Hlog. by apply ordered_pairs_NoDup.
Qed.




(** * run_analysis: the three functions together *)

Section AnalysisFacts.

Context {World : Type}.
Variable tailscale_status : World → status * World.
Variable tailscale_ping : World → string → run * World.
Variable search_latency : string → option num.

Local Abbreviation the_network :=
  (get_tailscale_network tailscale_status tailscale_ping search_latency).
Local Abbreviation the_analysis :=
  (run_analysis tailscale_status tailscale_ping search_latency).

(** The graph of the network is closed; its weights are non-negative when
    the matcher reads no negative number. *)
Lemma network_graph w (n : net World) :
  the_network w = Ok n →
  closed (net_graph n) ∧
  (nonneg_matcher search_latency → nonneg_weights (net_graph n)).
Proof.
  unfold get_tailscale_network.
  destruct (tailscale_status w) as [[|[nodes|e|]] w']; simpl; [| |done..].
  - intros [= <-]. simpl. split.
    + intros u v l (adj & Hu & _). by rewrite lookup_empty in Hu.
    + intros _ u v l (adj & Hu & _). by rewrite lookup_empty in Hu.
  - intros Hrun.
    destruct (build_facts tailscale_ping search_latency nodes w')
      as (n' & Hrun' & Hdom & Hok & _).
    rewrite Hrun in Hrun'. injection Hrun' as <-. split.
    + intros u v l He%edge_latency_of. destruct (Hok u v l He) as (_ & _ & Hv & _).
      apply elem_of_dom. rewrite Hdom. by apply elem_of_list_to_set.
    + intros Hm u v l He%edge_latency_of.
      destruct (Hok u v l He) as (_ & _ & _ & stdout & Hs). by eapply Hm.
Qed.

(** The only exception of the network is that of line 22. *)
Lemma network_raise w e :
  the_network w = Raise e → (tailscale_status w).1 = StatusPeers (Raise e).
Proof.
  unfold get_tailscale_network.
  destruct (tailscale_status w) as [[|[nodes|e'|]] w']; simpl; [done| | |done].
  - destruct (build_facts tailscale_ping search_latency nodes w')
      as (n' & -> & _). done.
  - by intros [= ->].
Qed.

(** dijkstra and reconstruct_path on a closed graph, from a key to a key:
    no exception. *)
Lemma tables_no_raise g start end_ fuel D P :
  closed g → is_Some (g !! end_) → dijkstra fuel g start = Ok (D, P) →
  is_Some (D !! end_) ∧ ∀ fuel' e, reconstruct_path fuel' P (Some end_) ≠ Raise e.
Proof.
  intros Hcl Hend Hrun.
  destruct (dijkstra_tables g start fuel D P Hrun)
    as (_ & st & [Hdd Hdp _ _ Hp] & <- & <-).
  split.
  - apply elem_of_dom. rewrite Hdd. by apply elem_of_dom.
  - intros fuel' e Hrec.
    destruct (loop_back_run _ fuel' end_ [] _ Hrec) as (l & missing & Hl & Hout);
      [done|].
    destruct missing as [key|]; [|done].
    destruct (back_run_missing _ _ _ _ Hl key eq_refl) as [Hnone [->|[x Hx]]].
    + apply not_elem_of_dom in Hnone. apply Hnone. rewrite Hdp.
      by apply elem_of_dom.
    + apply not_elem_of_dom in Hnone. apply Hnone. rewrite Hdp.
      destruct (Hp x key Hx) as [[w (adj & Hkey & _)] _].
      apply elem_of_dom. eauto.
Qed.



(** X18. The only exception that leaves run_analysis is the one line 22
    raises on a status that has not the expected shape: on the graph of the
    network neither dijkstra nor reconstruct_path nor the lookup of the
    distance raises. *)
Theorem run_analysis_raises_only_discovery fuel start end_ w e :
  run_analysis tailscale_status tailscale_ping search_latency fuel start end_ w = Raise e →
  (tailscale_status w).1 = StatusPeers (Raise e).
Proof.
  unfold run_analysis. case_decide as Hempty; [done|].
  destruct (the_network w) as [n|e'|] eqn:Hn; simpl; [| |done].
  2: { intros [= ->]. by apply network_raise. }
  case_decide as Hkeys; [done|].
  destruct (network_graph w n Hn) as [Hcl _].
  assert (Hs : is_Some (net_graph n !! start)).
  { destruct (net_graph n !! start) eqn:E; [by eauto|]. destruct Hkeys. by left. }
  assert (He : is_Some (net_graph n !! end_)).
  { destruct (net_graph n !! end_) eqn:E; [by eauto|]. destruct Hkeys. by right. }
  destruct (dijkstra fuel (net_graph n) start) as [[D P]|e'|] eqn:HD; simpl;
    [| |done].
  2: { exfalso. destruct (dijkstra_raise_cases _ _ _ _ HD)
         as [[Hnone _]|(u & k & l & Hedge & Hnone & _)].
       - rewrite Hnone in Hs. by destruct Hs.
       - destruct (Hcl u k l Hedge) as [? ?]. congruence. }
  destruct (tables_no_raise _ _ _ _ _ _ Hcl He HD) as [[d HDe] Hrec].
  destruct (reconstruct_path fuel P (Some end_)) as [path'|e'|] eqn:HR; simpl;
    [| |done].
  2: { by destruct (Hrec fuel e'). }
  unfold getitem. rewrite HDe. simpl. by case_decide.
Qed.


End AnalysisFacts.



Lemma run_analysis_raises_only_discovery_witness :
  (malformed_status 0%nat).1 = StatusPeers (Raise (KeyError "Peer")).
Proof.
  apply (run_analysis_raises_only_discovery malformed_status example_ping
           example_search 5 "a" "b" 0%nat).
  by vm_compute.
Defined.


(** * dijkstra over the arithmetic of floats: the proofs *)

Module RoundedFacts.

Import Rounded.

(** ** The order *)

Section OrderFacts.

Context {A : arith}.
Variable good : float A → Prop.
Hypothesis Hord : ordered good.

Lemma fl_lt_not_le (a b : float A) : (a < b)%fl → (b ≤ a)%fl → False.
Proof. unfold lt, le. congruence. Qed.

Lemma fl_le_refl (a : float A) : good a → (a ≤ a)%fl.
Proof. apply (ord_refl _ Hord). Qed.

Lemma fl_le_trans (a b c : float A) :
  (a ≤ b)%fl → (b ≤ c)%fl → good a → good b → good c → (a ≤ c)%fl.
Proof. intros Hab Hbc Ha Hb Hc. exact (ord_trans _ Hord a b c Ha Hb Hc Hab Hbc). Qed.

Lemma fl_lt_le (a b : float A) : (a < b)%fl → good a → good b → (a ≤ b)%fl.
Proof. intros Hab Ha Hb. exact (ord_asym _ Hord a b Ha Hb Hab). Qed.

Lemma fl_le_antisym (a b : float A) :
  (a ≤ b)%fl → (b ≤ a)%fl → good a → good b → a = b.
Proof. intros Hab Hba Ha Hb. exact (ord_antisym _ Hord a b Ha Hb Hab Hba). Qed.

Lemma fl_lt_le_trans (a b c : float A) :
  (a < b)%fl → (b ≤ c)%fl → good a → good b → good c → (a < c)%fl.
Proof.
  intros Hab Hbc Ha Hb Hc. unfold lt. destruct (ltb a c) eqn:Hac; [done|].
  exfalso. apply (fl_lt_not_le a b Hab). by apply (fl_le_trans b c a).
Qed.


Lemma fl_good_add (a b : float A) : good a → good b → good (a + b)%fl.
Proof. apply (ord_add _ Hord). Qed.

Lemma fl_eqb_true (a b : float A) : eqb a b = true → good a → good b → a = b.
Proof. intros H Ha Hb. by apply (ord_eqb _ Hord a b Ha Hb). Qed.

Lemma fl_eqb_refl (a : float A) : good a → eqb a a = true.
Proof. intros Ha. by apply (ord_eqb _ Hord a a Ha Ha). Qed.

(** ** The heap *)


Lemma fl_item_ltb_false (a b : item A) :
  item_ltb a b = false → good a.1 → good b.1 → (b.1 ≤ a.1)%fl.
Proof.
  unfold item_ltb. intros H Ha Hb. destruct (eqb a.1 b.1) eqn:Heq.
  - rewrite (fl_eqb_true _ _ Heq Ha Hb). by apply fl_le_refl.
  - done.
Qed.

(** [item_ltb b a = false] reads [a <= b] in Python's tuple order: it is
    reflexive, transitive and antisymmetric on the tuples that carry a value
    of the contract. *)
Lemma fl_item_le_refl (a : item A) : good a.1 → item_ltb a a = false.
Proof.
  intros Ha. unfold item_ltb. rewrite fl_eqb_refl by done.
  unfold String.ltb. assert (String.compare a.2 a.2 = Eq) as ->; [|done].
  generalize a.2. intros t. induction t as [|c t IHt]; simpl; [done|].
  unfold Ascii.compare. by rewrite N.compare_refl.
Qed.

Lemma fl_item_le_trans (a b c : item A) :
  good a.1 → good b.1 → good c.1 →
  item_ltb b a = false → item_ltb c b = false → item_ltb c a = false.
Proof.
  unfold item_ltb. destruct a as [a1 a2], b as [b1 b2], c as [c1 c2]; simpl.
  intros Ha Hb Hc.
  destruct (eqb b1 a1) eqn:Hba, (eqb c1 b1) eqn:Hcb, (eqb c1 a1) eqn:Hca;
    intros Hab Hbc;
    repeat match goal with
    | H : eqb ?x ?y = true |- _ => apply fl_eqb_true in H; [subst|done..]
    end;
    try rewrite fl_eqb_refl in * by done; try done.
  - rewrite string_ltb_leb, negb_false_iff in Hab, Hbc |- *.
    apply Is_true_true in Hab, Hbc. apply Is_true_true.
    by transitivity b2.
  - exfalso. assert (a1 = b1) by (by apply fl_le_antisym). subst.
    by rewrite fl_eqb_refl in Hba.
  - by apply (fl_le_trans a1 b1 c1).
Qed.

Lemma fl_item_ltb_asym (a b : item A) :
  good a.1 → good b.1 → item_ltb a b = true → item_ltb b a = false.
Proof.
  unfold item_ltb. destruct a as [a1 a2], b as [b1 b2]; simpl. intros Ha Hb.
  destruct (eqb a1 b1) eqn:Hab.
  - apply fl_eqb_true in Hab; [subst|done..]. rewrite fl_eqb_refl by done.
    unfold String.ltb. rewrite (String.compare_antisym b2 a2).
    by destruct (String.compare a2 b2).
  - intros Hlt. destruct (eqb b1 a1) eqn:Hba.
    + apply fl_eqb_true in Hba; [subst|done..]. by rewrite fl_eqb_refl in Hab.
    + by apply fl_lt_le.
Qed.

Lemma fl_item_le_antisym (a b : item A) :
  good a.1 → good b.1 → item_ltb a b = false → item_ltb b a = false → a = b.
Proof.
  unfold item_ltb. destruct a as [a1 a2], b as [b1 b2]; simpl. intros Ha Hb.
  destruct (eqb a1 b1) eqn:Hab.
  - apply fl_eqb_true in Hab; [subst|done..]. rewrite fl_eqb_refl by done.
    unfold String.ltb. intros H1 H2. f_equal. apply String.compare_eq_iff.
    rewrite (String.compare_antisym b2 a2) in H2.
    by destruct (String.compare a2 b2).
  - intros H1. destruct (eqb b1 a1) eqn:Hba.
    + apply fl_eqb_true in Hba; [subst|done..]. by rewrite fl_eqb_refl in Hab.
    + intros H2. assert (a1 = b1) by (by apply fl_le_antisym). subst.
      by rewrite fl_eqb_refl in Hab.
Qed.

Lemma fl_pop_min_perm (rest : list (item A)) : ∀ best m r,
  pop_min best rest = (m, r) → best :: rest ≡ₚ m :: r.
Proof.
  induction rest as [|x xs IH]; intros best m r; simpl.
  - by intros [= <- <-].
  - destruct (item_ltb x best).
    + destruct (pop_min x xs) as [m' r'] eqn:Hpop. intros [= <- <-].
      rewrite (IH _ _ _ Hpop). apply Permutation_swap.
    + destruct (pop_min best xs) as [m' r'] eqn:Hpop. intros [= <- <-].
      rewrite (Permutation_swap x best xs), (IH _ _ _ Hpop). apply Permutation_swap.
Qed.

(** The tuple popped is the least of the heap in Python's tuple order. *)
Lemma fl_pop_min_least (rest : list (item A)) : ∀ best m r,
  pop_min best rest = (m, r) → (∀ x, x ∈ best :: rest → good x.1) →
  ∀ x, x ∈ best :: rest → item_ltb x m = false.
Proof.
  induction rest as [|x xs IH]; intros best m r; simpl.
  - intros [= <- <-] Hg y ->%list_elem_of_singleton.
    apply fl_item_le_refl, Hg. left.
  - intros Hpop Hg.
    assert (Hgb : good best.1) by (apply Hg; left).
    assert (Hgx : good x.1) by (apply Hg; right; left).
    assert (Hgxs : ∀ y, y ∈ xs → good y.1) by (intros y Hy; apply Hg; by do 2 right).
    destruct (item_ltb x best) eqn:Hlt.
    + destruct (pop_min x xs) as [m' r'] eqn:Hpop'. injection Hpop as <- <-.
      assert (Hg' : ∀ y, y ∈ x :: xs → good y.1).
      { intros y [->|Hy]%elem_of_cons; auto. }
      assert (Hgm : good m'.1).
      { apply Hg'. rewrite (fl_pop_min_perm _ _ _ _ Hpop'). left. }
      intros y [->|Hy]%elem_of_cons; [|by eapply IH].
      apply (fl_item_le_trans _ x _); [done..| |by apply fl_item_ltb_asym].
      eapply IH; [done|done|left].
    + destruct (pop_min best xs) as [m' r'] eqn:Hpop'. injection Hpop as <- <-.
      assert (Hg' : ∀ y, y ∈ best :: xs → good y.1).
      { intros y [->|Hy]%elem_of_cons; auto. }
      assert (Hgm : good m'.1).
      { apply Hg'. rewrite (fl_pop_min_perm _ _ _ _ Hpop'). left. }
      intros y [->|[->|Hy]%elem_of_cons]%elem_of_cons.
      * eapply IH; [done|done|left].
      * apply (fl_item_le_trans _ best _); [done..| |exact Hlt].
        eapply IH; [done|done|left].
      * eapply IH; [done|done|by right].
Qed.

Lemma fl_heappop_perm (q : list (item A)) m r :
  heappop q = Some (m, r) → q ≡ₚ m :: r.
Proof.
  destruct q as [|x xs]; [done|]. simpl. intros [= H]. by apply fl_pop_min_perm.
Qed.

Lemma fl_heappop_least (q : list (item A)) m r :
  heappop q = Some (m, r) → (∀ x, x ∈ q → good x.1) →
  ∀ x, x ∈ q → item_ltb x m = false.
Proof.
  destruct q as [|x xs]; [done|]. simpl. intros [= H]. by eapply fl_pop_min_least.
Qed.

Lemma fl_heappop_le (q : list (item A)) m r :
  heappop q = Some (m, r) → (∀ x, x ∈ q → good x.1) →
  ∀ x, x ∈ q → (m.1 ≤ x.1)%fl.
Proof.
  intros Hpop Hg x Hx.
  apply fl_item_ltb_false; [by eapply fl_heappop_least|by apply Hg|].
  apply Hg. rewrite (fl_heappop_perm _ _ _ Hpop). left.
Qed.

Lemma fl_heappop_None (q : list (item A)) : heappop q = None → q = [].
Proof. by destruct q. Qed.

End OrderFacts.

(** ** Fuel *)

Lemma fl_dijkstra_loop_fuel {A : arith} items (g : gmap string (gmap string (float A))) n :
  ∀ st r m,
  dijkstra_loop items n g st = r → r ≠ OutOfFuel → (n ≤ m)%nat →
  dijkstra_loop items m g st = r.
Proof.
  induction n as [|n IH]; intros st r m; simpl.
  - destruct (heappop (priority_queue st)) as [[[d u] q]|] eqn:Hpop.
    + by intros <-.
    + intros <- _ _. destruct m; simpl; by rewrite Hpop.
  - destruct (heappop (priority_queue st)) as [[[d u] q]|] eqn:Hpop.
    + intros Hr Hne Hle. destruct m as [|m]; [lia|]. simpl. rewrite Hpop.
      destruct (iteration items g d u (set_queue st q)) as [st'|e|]; simpl in *; [|done..].
      apply IH; [done..|lia].
    + intros <- _ _. destruct m; simpl; by rewrite Hpop.
Qed.

(** ** Two runs that visit the dicts in two orders *)

Lemma fl_same_state_refl {A : arith} (st : state A) : same_state st st.
Proof. by split_and!. Qed.

Lemma fl_same_state_trans {A : arith} (st1 st2 st3 : state A) :
  same_state st1 st2 → same_state st2 st3 → same_state st1 st3.
Proof.
  intros (HD & HP & HQ) (HD' & HP' & HQ'). split_and!; [congruence..|].
  by rewrite HQ.
Qed.

Lemma fl_agree_trans {A : arith} (r1 r2 r3 : result (state A)) :
  agree same_state r1 r2 → agree same_state r2 r3 → agree same_state r1 r3.
Proof.
  destruct r1 as [st1|[k1|]|], r2 as [st2|[k2|]|], r3 as [st3|[k3|]|]; simpl; try done.
  apply fl_same_state_trans.
Qed.

(** One edge relaxed in two states that are the same. *)
Lemma fl_relax_same {A : arith} u d (st1 st2 : state A) e :
  same_state st1 st2 → agree same_state (relax u d st1 e) (relax u d st2 e).
Proof.
  destruct st1 as [D P Q], st2 as [D' P' Q'], e as [v w].
  intros (HD & HP & HQ); simpl in *; subst D' P'.
  unfold relax, getitem; simpl.
  destruct (D !! v) as [dv|]; simpl; [|done].
  destruct (ltb (d + w)%fl dv); simpl; [|done].
  split_and!; simpl; [done..|]. unfold heappush. by rewrite HQ.
Qed.

Lemma fl_relax_all_same {A : arith} u d (todo : list (string * float A)) :
  ∀ st1 st2, same_state st1 st2 →
  agree same_state (for_each (relax u d) todo st1) (for_each (relax u d) todo st2).
Proof.
  induction todo as [|e todo IH]; intros st1 st2 Hsame; [done|].
  rewrite !for_each_cons.
  pose proof (fl_relax_same u d st1 st2 e Hsame) as Hr.
  destruct (relax u d st1 e) as [st1'|[k1|]|], (relax u d st2 e) as [st2'|[k2|]|];
    simpl in *; try done.
  by apply IH.
Qed.

(** Two edges to two distinct neighbors, relaxed in the two orders. *)
Lemma fl_relax_swap {A : arith} u d (st1 st2 : state A) v1 w1 v2 w2 :
  v1 ≠ v2 → same_state st1 st2 →
  agree same_state
    (relax u d st1 (v2, w2) ≫= λ st, relax u d st (v1, w1))
    (relax u d st2 (v1, w1) ≫= λ st, relax u d st (v2, w2)).
Proof.
  destruct st1 as [D P Q], st2 as [D' P' Q'].
  intros Hne (HD & HP & HQ); simpl in *; subst D' P'.
  unfold relax, getitem; simpl.
  destruct (D !! v1) as [d1|] eqn:H1, (D !! v2) as [d2|] eqn:H2; simpl.
  - destruct (ltb (d + w2)%fl d2) eqn:Hlt2, (ltb (d + w1)%fl d1) eqn:Hlt1; simpl;
      rewrite ?lookup_insert_ne, ?H1, ?H2 by done; simpl; rewrite ?Hlt1, ?Hlt2;
      simpl; unfold heappush.
    + split_and!; simpl.
      * by apply insert_insert_ne.
      * by apply insert_insert_ne.
      * rewrite HQ. apply perm_swap.
    + split_and!; simpl; [done..|]. by rewrite HQ.
    + split_and!; simpl; [done..|]. by rewrite HQ.
    + by split_and!.
  - destruct (ltb (d + w1)%fl d1); simpl;
      rewrite ?lookup_insert_ne, ?H2 by done; done.
  - destruct (ltb (d + w2)%fl d2); simpl;
      rewrite ?lookup_insert_ne, ?H1 by done; done.
  - done.
Qed.

Lemma fl_agree_bind {A : arith} (r1 r2 : result (state A)) (k1 k2 : state A → result (state A)) :
  agree same_state r1 r2 →
  (∀ st1 st2, same_state st1 st2 → agree same_state (k1 st1) (k2 st2)) →
  agree same_state (r1 ≫= k1) (r2 ≫= k2).
Proof.
  destruct r1 as [st1|[k|]|], r2 as [st2|[k'|]|]; simpl; try done.
  intros Hsame Hk. by apply Hk.
Qed.

Lemma fl_for_each_cons2 {A : arith} (body : state A → string * float A → result (state A))
    x y l st :
  for_each body (x :: y :: l) st = (body st x ≫= λ st', body st' y) ≫= for_each body l.
Proof. simpl. by destruct (body st x). Qed.

(** The edges of a dict relaxed in two orders. *)
Lemma fl_relax_perm_same {A : arith} u d (l1 l2 : list (string * float A)) :
  l1 ≡ₚ l2 → NoDup l1.*1 → ∀ st1 st2, same_state st1 st2 →
  agree same_state (for_each (relax u d) l1 st1) (for_each (relax u d) l2 st2).
Proof.
  induction 1 as [|e l1 l2 Hperm IH|[v1 w1] [v2 w2] l|l1 l2 l3 H12 IH12 H23 IH23];
    intros Hnd st1 st2 Hsame.
  - done.
  - rewrite !for_each_cons. apply NoDup_cons in Hnd as [_ Hnd].
    apply fl_agree_bind; [by apply fl_relax_same|]. by apply IH.
  - rewrite !fl_for_each_cons2.
    assert (Hne : v1 ≠ v2).
    { simpl in Hnd. apply NoDup_cons in Hnd as [Hnin _].
      intros ->. apply Hnin. left. }
    apply fl_agree_bind; [by apply fl_relax_swap|]. apply fl_relax_all_same.
  - eapply fl_agree_trans.
    + apply IH12; [done|apply fl_same_state_refl].
    + apply IH23; [|done]. by rewrite <- H12.
Qed.

Section Determinism.

Context {A : arith}.
Variable good : float A → Prop.
Hypothesis Hord : ordered good.
Variable g : gmap string (gmap string (float A)).
Hypothesis Hweights : good_weights good g.
Variables items1 items2 : string → gmap string (float A) → list (string * float A).
Hypothesis Hitems1 : visit_order items1.
Hypothesis Hitems2 : visit_order items2.

(** The heap gives the same tuple whatever the order of its list. *)
Lemma fl_heappop_same (q1 q2 : list (item A)) :
  q1 ≡ₚ q2 → (∀ x, x ∈ q1 → good x.1) →
  match heappop q1, heappop q2 with
  | Some (m1, r1), Some (m2, r2) => m1 = m2 ∧ r1 ≡ₚ r2
  | None, None => True
  | _, _ => False
  end.
Proof.
  intros Hperm Hg.
  assert (Hg2 : ∀ x, x ∈ q2 → good x.1).
  { intros x Hx. apply Hg. by rewrite Hperm. }
  destruct (heappop q1) as [[m1 r1]|] eqn:H1, (heappop q2) as [[m2 r2]|] eqn:H2.
  - pose proof (fl_heappop_perm _ _ _ H1) as Hp1.
    pose proof (fl_heappop_perm _ _ _ H2) as Hp2.
    assert (Hm1 : m1 ∈ q1) by (rewrite Hp1; left).
    assert (Hm2 : m2 ∈ q2) by (rewrite Hp2; left).
    assert (m1 = m2) as ->.
    { apply (fl_item_le_antisym good Hord).
      - by apply Hg.
      - by apply Hg2.
      - apply (fl_heappop_least good Hord q2 m2 r2 H2 Hg2). by rewrite <- Hperm.
      - apply (fl_heappop_least good Hord q1 m1 r1 H1 Hg). by rewrite Hperm. }
    split; [done|]. apply (Permutation_cons_inv (a:=m2)).
    by rewrite <- Hp1, <- Hp2.
  - apply fl_heappop_None in H2. subst q2. apply Permutation_nil_r in Hperm.
    by subst q1.
  - apply fl_heappop_None in H1. subst q1. apply Permutation_nil_l in Hperm.
    by subst q2.
  - done.
Qed.

(** One iteration of the [while] in two states that are the same. *)
Lemma fl_iteration_same d u (st1 st2 : state A) :
  same_state st1 st2 →
  agree same_state (iteration items1 g d u st1) (iteration items2 g d u st2).
Proof.
  intros Hsame. pose proof Hsame as (HD & HP & HQ).
  unfold iteration, getitem. rewrite <- HD.
  destruct (distances st1 !! u) as [du|]; simpl; [|done].
  destruct (gtb d du); simpl; [done|].
  destruct (g !! u) as [adj|]; simpl; [|done].
  apply fl_relax_perm_same; [by rewrite Hitems1, Hitems2| |done].
  rewrite Hitems1. apply NoDup_fst_map_to_list.
Qed.

Lemma fl_relax_good_queue u d (st : state A) v w st' :
  good d → good w → good_queue good st → relax u d st (v, w) = Ok st' →
  good_queue good st'.
Proof.
  intros Hd Hw Hq. unfold relax, getitem.
  destruct (distances st !! v) as [dv|]; simpl; [|done].
  destruct (ltb (d + w)%fl dv); intros [= <-]; [|done].
  intros x [->|Hx]%elem_of_cons; [|by apply Hq].
  by apply (fl_good_add good Hord).
Qed.

Lemma fl_relax_all_good_queue u d (todo : list (string * float A)) :
  good d → (∀ v w, (v, w) ∈ todo → good w) →
  ∀ st st', good_queue good st → for_each (relax u d) todo st = Ok st' →
  good_queue good st'.
Proof.
  intros Hd. induction todo as [|[v w] todo IH]; intros Hw st st' Hq.
  - by intros [= <-].
  - rewrite for_each_cons.
    destruct (relax u d st (v, w)) as [st1|e|] eqn:Hr; simpl; [|done..].
    apply IH.
    + intros v' w' Hin. apply (Hw v' w'). by right.
    + eapply fl_relax_good_queue; [done| |done..]. apply (Hw v w). left.
Qed.

Lemma fl_iteration_good_queue d u (st st' : state A) :
  good d → good_queue good st → iteration items1 g d u st = Ok st' →
  good_queue good st'.
Proof.
  intros Hd Hq. unfold iteration, getitem.
  destruct (distances st !! u) as [du|]; simpl; [|done].
  destruct (gtb d du); simpl; [by intros [= <-]|].
  destruct (g !! u) as [adj|] eqn:Hgu; simpl; [|done].
  apply fl_relax_all_good_queue; [done| |done].
  intros v w Hin. apply (Hweights u v w). exists adj. split; [done|].
  apply elem_of_map_to_list. by rewrite <- (Hitems1 u adj).
Qed.

(** The loop from two states that are the same. *)
Lemma fl_loop_same fuel : ∀ st1 st2,
  same_state st1 st2 → good_queue good st1 →
  agree eq (dijkstra_loop items1 fuel g st1) (dijkstra_loop items2 fuel g st2).
Proof.
  induction fuel as [|fuel IH]; intros st1 st2 Hsame Hq;
    pose proof Hsame as (HD & HP & HQ);
    pose proof (fl_heappop_same _ _ HQ Hq) as Hpop; simpl.
  - destruct (heappop (priority_queue st1)) as [[[d1 u1] q1]|],
             (heappop (priority_queue st2)) as [[[d2 u2] q2]|]; try done.
    simpl. congruence.
  - destruct (heappop (priority_queue st1)) as [[[d1 u1] q1]|] eqn:Hpop1,
             (heappop (priority_queue st2)) as [[[d2 u2] q2]|]; try done.
    2: { simpl. congruence. }
    destruct Hpop as [[= <- <-] Hq12].
    pose proof (fl_heappop_perm _ _ _ Hpop1) as Hp1.
    assert (Hsame' : same_state (set_queue st1 q1) (set_queue st2 q2)).
    { by split_and!. }
    assert (Hq' : good_queue good (set_queue st1 q1)).
    { intros x Hx. apply Hq. rewrite Hp1. by right. }
    assert (Hd : good d1).
    { apply (Hq (d1, u1)). rewrite Hp1. left. }
    pose proof (fl_iteration_same d1 u1 _ _ Hsame') as Hit.
    pose proof (fl_iteration_good_queue d1 u1 (set_queue st1 q1)) as Hgq.
    destruct (iteration items1 g d1 u1 (set_queue st1 q1)) as [st1'|[k1|]|],
             (iteration items2 g d1 u1 (set_queue st2 q2)) as [st2'|[k2|]|];
      simpl in *; try done.
    apply IH; [done|]. by apply Hgq.
Qed.

Lemma fl_dijkstra_same fuel s :
  agree eq (dijkstra items1 fuel g s) (dijkstra items2 fuel g s).
Proof.
  apply fl_loop_same; [apply fl_same_state_refl|].
  intros x ->%list_elem_of_singleton. apply (ord_zero _ Hord).
Qed.

Lemma fl_dijkstra_same_tables fuel1 fuel2 s D1 P1 D2 P2 :
  dijkstra items1 fuel1 g s = Ok (D1, P1) → dijkstra items2 fuel2 g s = Ok (D2, P2) →
  D1 = D2 ∧ P1 = P2.
Proof.
  unfold dijkstra. intros H1 H2.
  apply (fl_dijkstra_loop_fuel _ _ _ _ _ (fuel1 `max` fuel2)%nat) in H1; [|done|lia].
  apply (fl_dijkstra_loop_fuel _ _ _ _ _ (fuel1 `max` fuel2)%nat) in H2; [|done|lia].
  pose proof (fl_dijkstra_same (fuel1 `max` fuel2)%nat s) as H.
  unfold dijkstra in H. rewrite H1, H2 in H. simpl in H. by injection H.
Qed.

End Determinism.

(** ** The invariant is kept *)

Section LawFacts.

Context {A : arith}.
Variable good : float A → Prop.
Hypothesis Hlaw : lawful good.

Lemma fl_le_inf (a : float A) : good a → (a ≤ inf)%fl.
Proof. apply (law_top _ Hlaw). Qed.

Lemma fl_zero_le (a : float A) : good a → (zero ≤ a)%fl.
Proof. apply (law_bottom _ Hlaw). Qed.

Lemma fl_inf_le (a : float A) : (inf ≤ a)%fl → good a → a = inf.
Proof.
  intros Hle Ha. apply (fl_le_antisym good (law_ordered _ Hlaw)); [|done..|].
  - by apply fl_le_inf.
  - apply (law_inf _ Hlaw).
Qed.

Lemma fl_lt_inf_or (a : float A) : good a → (a < inf)%fl ∨ a = inf.
Proof.
  intros Ha. unfold lt. destruct (ltb a inf) eqn:Hlt; [by left|right].
  by apply fl_inf_le.
Qed.

Lemma fl_add_mono (a b w : float A) :
  (a ≤ b)%fl → good a → good b → good w → (a + w ≤ b + w)%fl.
Proof. intros Hab Ha Hb Hw. by apply (law_mono _ Hlaw). Qed.

Lemma fl_add_infl (a w : float A) : good a → good w → (a ≤ a + w)%fl.
Proof. apply (law_infl _ Hlaw). Qed.

Lemma fl_add_inf (w : float A) : good w → (inf + w)%fl = inf.
Proof.
  intros Hw. apply fl_inf_le.
  - apply fl_add_infl; [apply (law_inf _ Hlaw)|done].
  - apply (fl_good_add good (law_ordered _ Hlaw)); [apply (law_inf _ Hlaw)|done].
Qed.

End LawFacts.

Section Preservation.

Context {A : arith}.
Variable good : float A → Prop.
Hypothesis Hlaw : lawful good.
Variable g : gmap string (gmap string (float A)).
Variable s : string.
Hypothesis Hweights : good_weights good g.

Local Abbreviation Hord := (law_ordered good Hlaw).

Lemma fl_weight_good u v w : edge g u v w → good w.
Proof. apply Hweights. Qed.

Lemma fl_sum_good (a b : float A) : good a → good b → good (a + b)%fl.
Proof. apply (fl_good_add good Hord). Qed.

Lemma fl_inf_good : good inf.
Proof. apply (law_inf good Hlaw). Qed.

Lemma fl_zero_good : good zero.
Proof. apply (ord_zero good Hord). Qed.

Local Ltac gd :=
  solve [eauto 6 using fl_weight_good, fl_sum_good, fl_inf_good, fl_zero_good].

Lemma fl_pchain_mono (st st' : state A) (keep : string → Prop) :
  keep s →
  (∀ x, settled st x →
     keep x ∧ settled st' x ∧ distances st' !! x = distances st !! x) →
  (∀ x, keep x → previous_nodes st' !! x = previous_nodes st !! x) →
  ∀ x l d, pchain g s st x l d → keep x → pchain g s st' x l d.
Proof.
  intros Hs Hset Hprev x l d Hc.
  induction Hc as [Hroot|u v w l du Hc IH Hu HDu HP He]; intros Hk.
  - constructor. by rewrite Hprev.
  - destruct (Hset u Hu) as (Hku & Hu' & HD').
    eapply pchain_step; eauto.
    + by rewrite HD'.
    + by rewrite Hprev.
Qed.

Lemma fl_inv_weaken M (ex ex' : string → string → float A → Prop) st :
  (∀ x v w, ex x v w → ex' x v w) → inv good g s M ex st → inv good g s M ex' st.
Proof.
  intros Hex [Hdom Hsrc Hsrcp HM HgD HQ Hnd Hse Hre Hch Hpv].
  split; try done.
  intros x dx v w Hx HDx He. destruct (Hre x dx v w Hx HDx He); eauto.
Qed.

(** One edge relaxed (lines 59-63). *)
Lemma fl_relax_inv M u todo v w st :
  inv good g s M (pending u ((v, w) :: todo)) st →
  settled st u → distances st !! u = Some M → edge g u v w →
  match relax u M st (v, w) with
  | Ok st' =>
      inv good g s M (pending u todo) st' ∧ settled st' u ∧
      distances st' !! u = Some M ∧
      (∀ x, settled st x → settled st' x) ∧
      (length (priority_queue st') ≤ S (length (priority_queue st)))%nat
  | Raise _ => g !! v = None
  | OutOfFuel => False
  end.
Proof.
  destruct st as [D P Q].
  intros [Hdom Hsrc Hsrcp HM HgD HQ Hnd Hse Hre Hch Hpv] Hset HDu He; simpl in *.
  assert (Hgw : good w) by gd.
  assert (HgQ : ∀ d x, (d, x) ∈ Q → good d) by (intros d x Hd; by apply (HQ d x)).
  unfold relax, getitem; simpl.
  destruct (D !! v) as [dv|] eqn:HDv; simpl.
  2: { apply not_elem_of_dom. rewrite <- Hdom. by apply not_elem_of_dom. }
  assert (Hgdv : good dv) by gd.
  destruct (ltb (M + w)%fl dv) eqn:Hlt.
  - (* the distance of [v] improves *)
    assert (Hgc : good (M + w)%fl) by gd.
    set (c := (M + w)%fl) in *.
    assert (Hc : (c < dv)%fl) by done.
    assert (HMc : (M ≤ c)%fl) by (by apply (fl_add_infl good Hlaw)).
    assert (HcInf : (c < inf)%fl).
    { apply (fl_lt_le_trans good Hord c dv inf); [done|by apply (fl_le_inf good Hlaw)|gd..]. }
    assert (Hnv : ¬ settled (State D P Q) v).
    { intros Hv. pose proof (Hse v dv Hv HDv) as Hle.
      apply (fl_lt_not_le c dv Hc).
      by apply (fl_le_trans good Hord dv M c). }
    assert (Huv : u ≠ v) by (by intros ->).
    assert (Hsv : s ≠ v).
    { intros ->. rewrite HDv in Hsrc. injection Hsrc as ->.
      apply (fl_lt_not_le c zero Hc). by apply (fl_zero_le good Hlaw). }
    assert (HQv : ∀ d, (d, v) ∈ Q → (dv ≤ d)%fl).
    { intros d Hd. destruct (HQ d v Hd) as (_ & _ & _ & dx & Hdx & Hle).
      rewrite HDv in Hdx. by injection Hdx as <-. }
    assert (HcQ : (c, v) ∉ Q).
    { intros Hin. apply (fl_lt_not_le c dv Hc). by apply HQv. }
    set (st' := State (<[v:=c]> D) (<[v:=Some u]> P) (heappush Q (c, v))).
    assert (Hfwd : ∀ x, settled (State D P Q) x → settled st' x).
    { intros x Hx. assert (x ≠ v) by (by intros ->).
      destruct Hx as (dx & HDx & HdxInf & HdxQ); simpl in *.
      exists dx. simpl. rewrite lookup_insert_ne by done.
      split_and!; [done..|].
      unfold heappush. intros [[=]|?]%elem_of_cons; done. }
    assert (Hbwd : ∀ x, settled st' x → x ≠ v ∧ settled (State D P Q) x).
    { intros x (dx & HDx & HdxInf & HdxQ); simpl in *.
      unfold heappush in HdxQ. apply not_elem_of_cons in HdxQ as [Hne HdxQ].
      assert (x ≠ v).
      { intros ->. rewrite lookup_insert_eq in HDx. by injection HDx as <-. }
      split; [done|]. rewrite lookup_insert_ne in HDx by done.
      by exists dx. }
    split_and!; [|by apply Hfwd|by simpl; rewrite lookup_insert_ne|done|done].
    split; simpl.
    + by rewrite dom_insert_lookup_L.
    + by rewrite lookup_insert_ne.
    + by rewrite lookup_insert_ne.
    + done.
    + intros x dx. destruct (decide (x = v)) as [->|Hne].
      * rewrite lookup_insert_eq. by intros [= <-].
      * rewrite lookup_insert_ne by done. apply HgD.
    + unfold heappush. intros d x [[= -> ->]|Hin]%elem_of_cons.
      * split_and!; [done..|]. exists c. rewrite lookup_insert_eq.
        split; [done|by apply (fl_le_refl good Hord)].
      * destruct (HQ d x Hin) as (Hgd & H1 & H2 & dx & Hdx & Hle).
        split_and!; [done..|].
        destruct (decide (x = v)) as [->|Hne].
        -- exists c. rewrite lookup_insert_eq. split; [done|].
           apply (fl_lt_le good Hord); [|done..].
           apply (fl_lt_le_trans good Hord c dv d); [done|by apply HQv|done..].
        -- exists dx. by rewrite lookup_insert_ne.
    + unfold heappush. by apply NoDup_cons.
    + intros x dx Hx HDx. destruct (Hbwd x Hx) as [Hne Hx'].
      rewrite lookup_insert_ne in HDx by done. by eapply Hse.
    + intros x dx v' w' Hx HDx He'. destruct (Hbwd x Hx) as [Hne Hx'].
      rewrite lookup_insert_ne in HDx by done.
      destruct (Hre x dx v' w' Hx' HDx He') as [[-> Hin]|(dv' & HDv' & Hle)].
      * apply elem_of_cons in Hin as [[= -> ->]|Hin]; [|by left].
        right. exists c. rewrite lookup_insert_eq. split; [done|].
        rewrite HDu in HDx. injection HDx as <-. by apply (fl_le_refl good Hord).
      * right. destruct (decide (v' = v)) as [->|Hne'].
        -- exists c. rewrite lookup_insert_eq. split; [done|].
           rewrite HDv in HDv'. injection HDv' as <-.
           assert (good (dx + w')%fl) by gd.
           apply (fl_lt_le good Hord); [|done..].
           by apply (fl_lt_le_trans good Hord c dv (dx + w')%fl).
        -- exists dv'. by rewrite lookup_insert_ne.
    + assert (Hlift : ∀ x l d, pchain g s (State D P Q) x l d → x ≠ v →
                pchain g s st' x l d).
      { apply (fl_pchain_mono _ _ (λ x, x ≠ v)); [done| |].
        - intros x Hx. assert (x ≠ v) by (by intros ->).
          split_and!; [done|by apply Hfwd|]. simpl. by rewrite lookup_insert_ne.
        - intros x Hx. simpl. by rewrite lookup_insert_ne. }
      intros x dx HDx HdxInf. destruct (decide (x = v)) as [->|Hne].
      * rewrite lookup_insert_eq in HDx. injection HDx as <-.
        destruct Hset as (du & HDu' & HduInf & HduQ); simpl in *.
        rewrite HDu in HDu'. injection HDu' as <-.
        destruct (Hch u M HDu HduInf) as [l Hl].
        exists (l ++ [v]). eapply pchain_step; [by apply Hlift| | | |done].
        -- apply Hfwd. by exists M.
        -- simpl. by rewrite lookup_insert_ne.
        -- simpl. by rewrite lookup_insert_eq.
      * rewrite lookup_insert_ne in HDx by done.
        destruct (Hch x dx HDx HdxInf) as [l Hl]. exists l. by apply Hlift.
    + intros x u'. destruct (decide (x = v)) as [->|Hne].
      * rewrite !lookup_insert_eq. intros _. by exists c.
      * rewrite !lookup_insert_ne by done. apply Hpv.
  - (* no improvement *)
    assert (Hle : (dv ≤ M + w)%fl) by done.
    split_and!; [|done..|simpl; lia].
    split; try done. simpl.
    intros x dx v' w' Hx HDx He'.
    destruct (Hre x dx v' w' Hx HDx He') as [[-> Hin]|?]; [|by right].
    apply elem_of_cons in Hin as [[= -> ->]|Hin]; [|by left].
    right. exists dv. split; [done|].
    rewrite HDu in HDx. by injection HDx as <-.
Qed.

(** All the edges of the node relaxed (lines 58-63). *)
Lemma fl_relax_all_inv M u todo : ∀ st,
  (∀ v w, (v, w) ∈ todo → edge g u v w) →
  inv good g s M (pending u todo) st → settled st u → distances st !! u = Some M →
  match for_each (relax u M) todo st with
  | Ok st' =>
      inv good g s M no_pending st' ∧ (∀ x, settled st x → settled st' x) ∧
      (length (priority_queue st') ≤ length (priority_queue st) + length todo)%nat
  | Raise _ => ¬ closed g
  | OutOfFuel => False
  end.
Proof.
  induction todo as [|[v w] todo IH]; intros st Hedges Hinv Hset HDu.
  - simpl. split_and!; [|done|lia]. eapply fl_inv_weaken; [|done].
    intros x v w [_ H]. by apply elem_of_nil in H.
  - rewrite for_each_cons.
    pose proof (fl_relax_inv M u todo v w st Hinv Hset HDu
                  (Hedges v w ltac:(left))) as Hr.
    destruct (relax u M st (v, w)) as [st1|e|]; simpl; [| |done].
    + destruct Hr as (Hinv1 & Hset1 & HDu1 & Hmono & Hlen).
      assert (Hedges' : ∀ v w, (v, w) ∈ todo → edge g u v w).
      { intros v' w' Hin. apply Hedges. by right. }
      specialize (IH st1 Hedges' Hinv1 Hset1 HDu1).
      destruct (for_each (relax u M) todo st1) as [st2|e|]; [|exact IH..].
      destruct IH as (Hinv2 & Hmono2 & Hlen2).
      split_and!; [done|by eauto|simpl; lia].
    + intros Hcl. destruct (Hcl u v w (Hedges v w ltac:(left))) as [adj Hadj].
      congruence.
Qed.


Lemma fl_work_settle (popped : gset string) u adj :
  g !! u = Some adj → u ∉ popped →
  (work g ({[u]} ∪ popped) + length (map_to_list adj) ≤ work g popped)%nat.
Proof.
  intros Hgu Hnu.
  apply (sum_list_with_drop _ _ _ (u, adj)); simpl.
  - by apply elem_of_map_to_list.
  - rewrite decide_True by set_solver. rewrite decide_False by done. lia.
  - intros [x adj'] _; simpl. repeat case_decide; try lia. set_solver.
Qed.

Section Iteration.

Variable items : string → gmap string (float A) → list (string * float A).
Hypothesis Hitems : visit_order items.

(** One iteration of the [while] (lines 54-63). *)
Lemma fl_iteration_inv budget st d u q :
  loop_inv good g s budget st → heappop (priority_queue st) = Some ((d, u), q) →
  match iteration items g d u (set_queue st q) with
  | Ok st' => ∃ budget', (budget' < budget)%nat ∧ loop_inv good g s budget' st'
  | Raise _ => ¬ closed g
  | OutOfFuel => False
  end.
Proof.
  destruct st as [D P Q]. intros (M & popped & Hinv & Hpopped & Hbudget) Hpop.
  pose proof (fl_heappop_perm _ _ _ Hpop) as Hperm. simpl in *.
  destruct Hinv as [Hdom Hsrc Hsrcp HM HgD HQ Hnd Hse Hre Hch Hpv]; simpl in *.
  assert (HgQ : ∀ x, x ∈ Q → good x.1).
  { intros [d' x] Hx. by apply (HQ d' x). }
  pose proof (fl_heappop_le good Hord _ _ _ Hpop HgQ) as Hmin. simpl in Hmin.
  assert (Hin : (d, u) ∈ Q) by (rewrite Hperm; left).
  destruct (HQ d u Hin) as (Hgd & HMd & HdInf & du & HDu & Hdu).
  assert (Hgdu : good du) by gd.
  assert (Hnd' : NoDup ((d, u) :: q)) by (by rewrite <- Hperm).
  apply NoDup_cons in Hnd' as [Hnq Hndq].
  assert (Hsub : ∀ x, x ∈ q → x ∈ Q) by (intros; rewrite Hperm; by right).
  assert (Hcase : ∀ x, x ∈ Q → x = (d, u) ∨ x ∈ q).
  { intros x Hx. rewrite Hperm in Hx. by apply elem_of_cons in Hx. }
  assert (Hlen : length Q = S (length q)) by (by rewrite Hperm).
  unfold iteration, getitem, set_queue; simpl. rewrite HDu; simpl.
  unfold gtb. destruct (ltb du d) eqn:Hstale.
  - (* a stale tuple *)
    set (st' := State D P q).
    assert (Hfwd : ∀ x, settled (State D P Q) x → settled st' x).
    { intros x (dx & ? & ? & Hn). exists dx. split_and!; [done..|].
      simpl. by intros ?%Hsub. }
    assert (Hbwd : ∀ x, settled st' x → settled (State D P Q) x).
    { intros x (dx & HDx & ? & Hn). exists dx. split_and!; [done..|].
      simpl in *. intros [[= -> ->]|?]%Hcase; [|done].
      rewrite HDu in HDx. injection HDx as ->.
      eapply fl_lt_not_le; [exact Hstale|]. by apply (fl_le_refl good Hord). }
    exists (length q + work g popped)%nat. split; [lia|].
    exists M, popped. split_and!; [|by auto|done].
    split; simpl; try done.
    + intros d' x Hx. apply HQ. by apply Hsub.
    + intros x dx Hx. apply Hse. by apply Hbwd.
    + intros x dx v w Hx. apply Hre. by apply Hbwd.
    + intros v dv HDv Hlt. destruct (Hch v dv HDv Hlt) as [l Hl].
      exists l. apply (fl_pchain_mono (State D P Q) st' (λ _, True)); try done.
      intros x Hx. split_and!; [done|by apply Hfwd|done].
  - (* the node is expanded *)
    assert (du = d) as -> by (by apply (fl_le_antisym good Hord)).
    destruct (g !! u) as [adj|] eqn:Hgu; simpl.
    2: { exfalso. apply not_elem_of_dom in Hgu. apply Hgu.
         rewrite <- Hdom. apply elem_of_dom. eauto. }
    set (st1 := State D P q).
    assert (Hset1 : settled st1 u) by (by exists d).
    assert (Hfwd : ∀ x, settled (State D P Q) x → settled st1 x).
    { intros x (dx & ? & ? & Hn). exists dx. split_and!; [done..|].
      simpl. by intros ?%Hsub. }
    assert (Hbwd : ∀ x, settled st1 x → x = u ∨ settled (State D P Q) x).
    { intros x (dx & HDx & ? & Hn). destruct (decide (x = u)); [by left|right].
      exists dx. split_and!; [done..|].
      simpl in *. by intros [[= -> ->]|?]%Hcase. }
    assert (Hnu : ¬ settled (State D P Q) u).
    { intros (dx & HDx & _ & Hn). simpl in *.
      rewrite HDu in HDx. by injection HDx as <-. }
    assert (Hinv1 : inv good g s d (pending u (items u adj)) st1).
    { split; simpl; try done.
      - intros d' x Hx. destruct (HQ d' x (Hsub _ Hx)) as (? & _ & ? & ?).
        split_and!; [done| |done..]. apply (Hmin (d', x)). by apply Hsub.
      - intros x dx Hx HDx. destruct (Hbwd x Hx) as [->|Hx'].
        + rewrite HDu in HDx. injection HDx as <-. by apply (fl_le_refl good Hord).
        + apply (fl_le_trans good Hord dx M d); [by apply (Hse x)|done|gd..].
      - intros x dx v w Hx HDx He. destruct (Hbwd x Hx) as [->|Hx'].
        + left. split; [done|]. destruct He as (adj' & Hg & Hv).
          rewrite Hgu in Hg. injection Hg as <-.
          rewrite (Hitems u adj). by apply elem_of_map_to_list.
        + destruct (Hre x dx v w Hx' HDx He) as [[]|?]. by right.
      - intros v dv HDv Hlt. destruct (Hch v dv HDv Hlt) as [l Hl].
        exists l. apply (fl_pchain_mono (State D P Q) st1 (λ _, True)); try done.
        intros x Hx. split_and!; [done|by apply Hfwd|done]. }
    assert (Hedges : ∀ v w, (v, w) ∈ items u adj → edge g u v w).
    { intros v w Hvw. exists adj. split; [done|].
      apply elem_of_map_to_list. by rewrite <- (Hitems u adj). }
    pose proof (fl_relax_all_inv d u (items u adj) st1 Hedges Hinv1 Hset1 HDu)
      as Hr.
    destruct (for_each (relax u d) (items u adj) st1) as [st2|e|]; [|exact Hr..].
    destruct Hr as (Hinv2 & Hmono & Hlen2).
    assert (Hnp : u ∉ popped) by (intros Hu; by apply Hnu, Hpopped).
    pose proof (fl_work_settle popped u adj Hgu Hnp) as Hwork.
    rewrite (Permutation_length (Hitems u adj)) in Hlen2. simpl in Hlen2.
    exists (length (priority_queue st2) + work g ({[u]} ∪ popped))%nat.
    split; [lia|].
    exists d, ({[u]} ∪ popped). split_and!; [done| |done].
    intros x [->%elem_of_singleton|Hx]%elem_of_union; apply Hmono; [done|].
    by apply Hfwd, Hpopped.
Qed.

End Iteration.

End Preservation.

(** ** From the invariant to the results of dijkstra *)

Lemma fl_init_lookup {A : arith} (g : gmap string (gmap string (float A))) s x dx :
  distances (init g s) !! x = Some dx →
  (x = s ∧ dx = zero) ∨ (x ≠ s ∧ dx = inf).
Proof.
  simpl. destruct (decide (x = s)) as [->|Hne].
  - rewrite lookup_insert_eq. intros [= <-]. by left.
  - rewrite lookup_insert_ne, lookup_fmap by done.
    destruct (g !! x); simpl; [|done]. intros [= <-]. by right.
Qed.

Section Correctness.

Context {A : arith}.
Variable good : float A → Prop.
Hypothesis Hlaw : lawful good.
Variable g : gmap string (gmap string (float A)).
Variable s : string.
Hypothesis Hweights : good_weights good g.
Hypothesis Hsource : is_Some (g !! s).
Variable items : string → gmap string (float A) → list (string * float A).
Hypothesis Hitems : visit_order items.

Local Abbreviation Hord := (law_ordered good Hlaw).

Lemma fl_inf_not_finite : ¬ ((inf : float A) < inf)%fl.
Proof.
  intros H. apply (fl_lt_not_le _ _ H). apply (fl_le_refl good Hord).
  apply (law_inf good Hlaw).
Qed.

Lemma fl_init_not_settled x : ¬ settled (init g s) x.
Proof.
  intros (dx & HDx & Hfin & Hq).
  destruct (fl_init_lookup g s x dx HDx) as [[-> ->]|[_ ->]].
  - apply Hq. simpl. left.
  - by apply fl_inf_not_finite.
Qed.

Lemma fl_init_inv : loop_inv good g s (S (edge_count g)) (init g s).
Proof.
  destruct Hsource as [adj Hadj].
  pose proof (ord_zero good Hord) as Hzero.
  exists zero, ∅. split_and!.
  - split.
    + simpl. rewrite dom_insert_lookup_L, dom_fmap_L; [done|].
      by rewrite lookup_fmap, Hadj.
    + simpl. by rewrite lookup_insert_eq.
    + simpl. by rewrite lookup_fmap, Hadj.
    + done.
    + intros x dx HDx.
      destruct (fl_init_lookup g s x dx HDx) as [[_ ->]|[_ ->]]; [done|].
      apply (law_inf good Hlaw).
    + simpl. intros d x [= -> ->]%list_elem_of_singleton.
      split_and!; [done|by apply (fl_le_refl good Hord)|apply (law_finite good Hlaw)|].
      exists zero. rewrite lookup_insert_eq. split; [done|by apply (fl_le_refl good Hord)].
    + simpl. apply NoDup_singleton.
    + intros x dx Hx. by apply fl_init_not_settled in Hx.
    + intros x dx v w Hx. by apply fl_init_not_settled in Hx.
    + intros v dv HDv Hfin.
      destruct (fl_init_lookup g s v dv HDv) as [[-> ->]|[_ ->]].
      * exists [s]. constructor. simpl. by rewrite lookup_fmap, Hadj.
      * by apply fl_inf_not_finite in Hfin.
    + intros v u. simpl. rewrite lookup_fmap. by destruct (g !! v).
  - intros x Hx. by apply elem_of_empty in Hx.
  - simpl. apply le_n_S. unfold work, edge_count.
    apply sum_list_with_le. intros [x adj'] _. simpl. by rewrite decide_False.
Qed.

(** The loop returns the tables of a state that satisfies the invariant
    and whose queue is empty. *)
Lemma fl_loop_final fuel : ∀ budget st D P,
  loop_inv good g s budget st → dijkstra_loop items fuel g st = Ok (D, P) →
  ∃ budget' st', loop_inv good g s budget' st' ∧ priority_queue st' = [] ∧
         distances st' = D ∧ previous_nodes st' = P.
Proof.
  induction fuel as [|fuel IH]; intros budget st D P Hinv; simpl.
  - destruct (heappop (priority_queue st)) as [[[d u] q]|] eqn:Hpop; [done|].
    intros [= <- <-]. exists budget, st. by apply fl_heappop_None in Hpop.
  - destruct (heappop (priority_queue st)) as [[[d u] q]|] eqn:Hpop.
    + pose proof (fl_iteration_inv good Hlaw g s Hweights items Hitems
                    budget st d u q Hinv Hpop) as Hit.
      destruct (iteration items g d u (set_queue st q)) as [st'|e|]; simpl; [|done..].
      destruct Hit as (budget' & _ & Hinv'). by apply (IH budget').
    + intros [= <- <-]. exists budget, st. by apply fl_heappop_None in Hpop.
Qed.

(** The loop ends within [budget] rounds: it returns when every edge
    target is a key, and it raises otherwise. *)
Lemma fl_loop_ends fuel : ∀ budget st,
  loop_inv good g s budget st → (budget ≤ fuel)%nat →
  match dijkstra_loop items fuel g st with
  | Ok _ => True
  | Raise _ => ¬ closed g
  | OutOfFuel => False
  end.
Proof.
  induction fuel as [|fuel IH]; intros budget st Hinv Hm; simpl.
  - destruct (heappop (priority_queue st)) as [[[d u] q]|] eqn:Hpop; [|done].
    apply fl_heappop_perm in Hpop. apply Permutation_length in Hpop.
    destruct Hinv as (M & popped & _ & _ & Hb). simpl in *. lia.
  - destruct (heappop (priority_queue st)) as [[[d u] q]|] eqn:Hpop; [|done].
    pose proof (fl_iteration_inv good Hlaw g s Hweights items Hitems
                  budget st d u q Hinv Hpop) as Hit.
    destruct (iteration items g d u (set_queue st q)) as [st'|e|]; simpl; [|done..].
    destruct Hit as (budget' & Hlt & Hinv'). apply (IH budget'); [done|lia].
Qed.

Section Final.

Variable st : state A.
Variable budget : nat.
Hypothesis Hinv : loop_inv good g s budget st.
Hypothesis Hempty : priority_queue st = [].

Lemma fl_final_settled x dx :
  distances st !! x = Some dx → (dx < inf)%fl → settled st x.
Proof.
  intros HDx Hfin. exists dx. split_and!; [done..|].
  rewrite Hempty. apply not_elem_of_nil.
Qed.

Lemma fl_walk_good v d : walk g s v d → good d.
Proof.
  induction 1 as [|u v w d Hwalk IH He]; [apply (ord_zero good Hord)|].
  apply (fl_good_add good Hord); [done|by apply (Hweights u v w)].
Qed.

Lemma fl_final_lower_bound v d :
  walk g s v d → ∀ dv, distances st !! v = Some dv → (dv ≤ d)%fl.
Proof.
  destruct Hinv as (M & popped & [Hdom Hsrc Hsrcp HM HgD HQ Hnd Hse Hre Hch Hpv] & _).
  induction 1 as [|u v w d Hwalk IH He]; intros dv HDv.
  - rewrite Hsrc in HDv. injection HDv as <-.
    apply (fl_le_refl good Hord), (ord_zero good Hord).
  - assert (is_Some (distances st !! u)) as [du HDu].
    { apply elem_of_dom. rewrite Hdom. apply elem_of_dom.
      destruct He as (adj & -> & _). eauto. }
    specialize (IH du HDu).
    pose proof (fl_walk_good u d Hwalk) as Hgd.
    pose proof (Hweights u v w He) as Hgw.
    pose proof (HgD u du HDu) as Hgdu.
    pose proof (HgD v dv HDv) as Hgdv.
    destruct (fl_lt_inf_or good Hlaw du Hgdu) as [Hfin| ->].
    + destruct (Hre u du v w (fl_final_settled u du HDu Hfin) HDu He)
        as [[]|(dv' & HDv' & Hle)].
      rewrite HDv in HDv'. injection HDv' as <-.
      apply (fl_le_trans good Hord dv (du + w)%fl (d + w)%fl); [done| |done|..].
      * by apply (fl_add_mono good Hlaw).
      * by apply (fl_good_add good Hord).
      * by apply (fl_good_add good Hord).
    + apply (fl_inf_le good Hlaw) in IH as ->; [|done].
      rewrite (fl_add_inf good Hlaw w Hgw). by apply (fl_le_inf good Hlaw).
Qed.

Lemma fl_pchain_walk v l d : pchain g s st v l d → walk g s v d.
Proof.
  induction 1 as [|u v w l du _ IH]; [constructor|].
  by eapply walk_step.
Qed.

Lemma fl_final_shortest v dv : distances st !! v = Some dv → shortest g s v dv.
Proof.
  intros HDv.
  pose proof Hinv as (M & popped & HI & _).
  split_and!.
  - intros d Hw. by eapply fl_final_lower_bound.
  - intros Hfin.
    destruct (inv_chain _ _ _ _ _ _ HI v dv HDv Hfin) as [l Hl].
    by eapply fl_pchain_walk.
  - intros Hno.
    destruct (fl_lt_inf_or good Hlaw dv (inv_good _ _ _ _ _ _ HI v dv HDv)) as [Hfin|];
      [|done].
    destruct (inv_chain _ _ _ _ _ _ HI v dv HDv Hfin) as [l Hl].
    by apply fl_pchain_walk, Hno in Hl.
Qed.

End Final.

Lemma fl_dijkstra_final fuel D P :
  dijkstra items fuel g s = Ok (D, P) →
  ∃ budget st, loop_inv good g s budget st ∧ priority_queue st = [] ∧
        distances st = D ∧ previous_nodes st = P.
Proof.
  intros Hrun. eapply fl_loop_final; [|exact Hrun]. apply fl_init_inv.
Qed.

Lemma fl_dijkstra_ends fuel :
  (edge_count g < fuel)%nat →
  match dijkstra items fuel g s with
  | Ok _ => True
  | Raise _ => ¬ closed g
  | OutOfFuel => False
  end.
Proof.
  intros Hfuel. apply (fl_loop_ends fuel (S (edge_count g))); [|lia].
  apply fl_init_inv.
Qed.

Lemma fl_dijkstra_returns fuel :
  closed g → (edge_count g < fuel)%nat →
  ∃ D P, dijkstra items fuel g s = Ok (D, P).
Proof.
  intros Hcl Hfuel. pose proof (fl_dijkstra_ends fuel Hfuel) as H.
  destruct (dijkstra items fuel g s) as [[D P]|e|]; [by eauto|done..].
Qed.

End Correctness.

(** ** Paths read from the predecessor table *)

Lemma fl_path_weight_snoc {A : arith} (g : gmap string (gmap string (float A))) rest :
  ∀ acc a d u adj v w,
  path_weight g acc a rest = Some d → last (a :: rest) = Some u →
  g !! u = Some adj → adj !! v = Some w →
  path_weight g acc a (rest ++ [v]) = Some (d + w)%fl.
Proof.
  induction rest as [|b rest IH]; intros acc a d u adj v w; simpl.
  - intros [= <-] [= <-] -> ->. done.
  - destruct (g !! a) as [adj'|]; [|done].
    destruct (adj' !! b) as [w'|]; [|done].
    intros Hpw Hlast. eapply IH; [done|].
    by destruct rest.
Qed.

Lemma fl_path_weight_edges {A : arith} (g : gmap string (gmap string (float A))) rest :
  ∀ acc a d,
  path_weight g acc a rest = Some d → follows_edges g (a :: rest).
Proof.
  induction rest as [|b rest IH]; intros acc a d; simpl.
  - intros _ [|i] u v; simpl; [done|by rewrite lookup_nil].
  - destruct (g !! a) as [adj'|] eqn:Hg; [|done].
    destruct (adj' !! b) as [w'|] eqn:Hb; [|done].
    intros Hpw [|i] u v; simpl.
    + intros [= <-] [= <-]. exists w', adj'. done.
    + apply (IH _ _ _ Hpw i).
Qed.

Lemma fl_pchain_path {A : arith} (g : gmap string (gmap string (float A))) s st v l d :
  pchain g s st v l d →
  head l = Some s ∧ last l = Some v ∧ total_weight g l = Some d ∧
  ∀ acc, reconstruct_loop (length l) (previous_nodes st) (Some v) acc = Ok (l ++ acc).
Proof.
  induction 1 as [Hroot|u v w l du _ IH Hu HDu HP He].
  - split_and!; [done..|]. intros acc. simpl. unfold getitem. by rewrite Hroot.
  - destruct IH as (Hhd & Hlast & Htw & Hrec).
    destruct l as [|a rest]; [done|]. simpl in Hhd. injection Hhd as ->.
    destruct He as (adj & Hg & Hv).
    split_and!.
    + done.
    + by rewrite last_snoc.
    + simpl in *. by eapply fl_path_weight_snoc.
    + intros acc. rewrite length_app, Nat.add_1_r.
      cbn [reconstruct_loop]. unfold getitem. rewrite HP.
      cbn [mbind result_bind]. rewrite Hrec. by rewrite <- app_assoc.
Qed.

Lemma fl_pchain_last_link {A : arith} (g : gmap string (gmap string (float A))) s st v l d u :
  pchain g s st v l d → previous_nodes st !! v = Some (Some u) →
  ∃ w du, edge g u v w ∧ distances st !! u = Some du ∧ d = (du + w)%fl.
Proof.
  destruct 1 as [Hroot|u' v w l du _ _ HDu HP He]; intros Hv.
  - congruence.
  - rewrite HP in Hv. injection Hv as <-. by exists w, du.
Qed.


(** ** Whatever the weights: the distances are totals of walks *)

Section Walks.

Context {A : arith}.
Variable g : gmap string (gmap string (float A)).
Variable s : string.
Variable items : string → gmap string (float A) → list (string * float A).
Hypothesis Hitems : visit_order items.

Lemma fl_init_walks : walks_inv g s (init g s).
Proof.
  split.
  - intros v dv HDv.
    destruct (fl_init_lookup g s v dv HDv) as [[-> ->]|[_ ->]]; [right; constructor|by left].
  - intros d x [= -> ->]%list_elem_of_singleton. constructor.
Qed.

Lemma fl_relax_walks u d st v w st' :
  walks_inv g s st → walk g s u d → edge g u v w →
  relax u d st (v, w) = Ok st' → walks_inv g s st'.
Proof.
  intros [Hw Hq] Hwalk He. unfold relax, getitem.
  destruct (distances st !! v) as [dv|] eqn:HDv; simpl; [|done].
  destruct (ltb (d + w)%fl dv); intros [= <-]; [|done].
  split; simpl.
  - intros x dx. destruct (decide (x = v)) as [->|Hne].
    + rewrite lookup_insert_eq. intros [= <-]. right. by eapply walk_step.
    + rewrite lookup_insert_ne by done. apply Hw.
  - unfold heappush. intros d' x [[= -> ->]|Hin]%elem_of_cons.
    + by eapply walk_step.
    + by apply Hq.
Qed.

Lemma fl_relax_all_walks u d todo : ∀ st st',
  (∀ v w, (v, w) ∈ todo → edge g u v w) → walk g s u d → walks_inv g s st →
  for_each (relax u d) todo st = Ok st' → walks_inv g s st'.
Proof.
  induction todo as [|[v w] todo IH]; intros st st' Hedges Hwalk Hinv.
  - by intros [= <-].
  - rewrite for_each_cons.
    destruct (relax u d st (v, w)) as [st1|e|] eqn:Hr; simpl; [|done..].
    apply IH; [|done|].
    + intros v' w' Hin. apply Hedges. by right.
    + eapply fl_relax_walks; [done..| |done]. apply Hedges. left.
Qed.

Lemma fl_iteration_walks st d u q st' :
  walks_inv g s st → heappop (priority_queue st) = Some ((d, u), q) →
  iteration items g d u (set_queue st q) = Ok st' → walks_inv g s st'.
Proof.
  intros [Hw Hq] Hpop. pose proof (fl_heappop_perm _ _ _ Hpop) as Hperm.
  assert (Hwalk : walk g s u d) by (apply Hq; rewrite Hperm; left).
  assert (Hinv1 : walks_inv g s (set_queue st q)).
  { split; simpl; [done|]. intros d' x Hx. apply Hq. rewrite Hperm. by right. }
  unfold iteration, getitem. simpl.
  destruct (distances st !! u) as [du|]; simpl; [|done].
  destruct (gtb d du); [by intros [= <-]|].
  destruct (g !! u) as [adj|] eqn:Hgu; simpl; [|done].
  apply fl_relax_all_walks; [|done..].
  intros v w Hvw. exists adj. split; [done|].
  apply elem_of_map_to_list. by rewrite <- (Hitems u adj).
Qed.

Lemma fl_loop_walks fuel : ∀ st D P,
  walks_inv g s st → dijkstra_loop items fuel g st = Ok (D, P) →
  ∀ v dv, D !! v = Some dv → dv = inf ∨ walk g s v dv.
Proof.
  induction fuel as [|fuel IH]; intros st D P Hinv; simpl.
  - destruct (heappop (priority_queue st)) as [[[d u] q]|]; [done|].
    intros [= <- <-]. apply Hinv.
  - destruct (heappop (priority_queue st)) as [[[d u] q]|] eqn:Hpop.
    2: { intros [= <- <-]. apply Hinv. }
    destruct (iteration items g d u (set_queue st q)) as [st'|e|] eqn:Hit; simpl;
      [|done..].
    apply IH. by eapply fl_iteration_walks.
Qed.

End Walks.

(** ** The exact numbers are an arithmetic with the laws *)

Lemma exact_lawful : lawful (A:=exact) nonneg.
Proof.
  split; [split|..]; unfold nonneg, le, lt, Num.le; simpl;
    repeat (let x := fresh in intros x; try (destruct x as [?|]));
    simpl in *; rewrite ?bool_decide_eq_true, ?Z.ltb_lt, ?Z.ltb_ge in *;
    try first [ done | lia | f_equal; lia ].
Qed.

(** ** Rounded sums have the laws

    A rounding that grows with its argument and leaves 0 and its own values
    as they are gives an arithmetic with the laws, whatever the bound of the
    overflow. *)
Section Rounding.

Variable rnd : Z → Z.
Variable top : Z.
Hypothesis Hmono : ∀ x y, x ≤ y → rnd x ≤ rnd y.
Hypothesis Hidem : ∀ x, rnd (rnd x) = rnd x.
Hypothesis Hzero : rnd 0 = 0.
Hypothesis Htop : 0 ≤ top.

Lemma rounding_lawful : lawful (A:=rounding rnd top) (representable rnd top).
Proof.
  split; [split|..]; unfold representable, le, lt; simpl.
  - done.
  - intros [x|] [y|]; try done. intros (Hx & _ & _) (Hy & _ & _).
    destruct (top <? rnd (x + y)) eqn:Ht; [done|]. apply Z.ltb_ge in Ht.
    pose proof (Hmono 0 (x + y) ltac:(lia)). split_and!; [lia|apply Hidem|done].
  - intros [x|] _; simpl; [apply Z.ltb_irrefl|done].
  - intros [x|] [y|] [z|] _ _ _; simpl; rewrite ?Z.ltb_ge; try done. lia.
  - intros [x|] [y|] _ _; simpl; rewrite ?Z.ltb_ge, ?Z.ltb_lt; try done. lia.
  - intros [x|] [y|] _ _; simpl; rewrite ?Z.ltb_ge; try done. intros. f_equal. lia.
  - intros a b _ _. apply bool_decide_eq_true.
  - done.
  - intros [x|] _; simpl; done.
  - intros [x|] H; simpl; [|done]. apply Z.ltb_ge. by destruct H.
  - done.
  - intros [x|] [y|] [c|] _ _ _; simpl; rewrite ?Z.ltb_ge; try done.
    intros Hxy. pose proof (Hmono (x + c) (y + c) ltac:(lia)).
    destruct (top <? rnd (x + c)) eqn:H1, (top <? rnd (y + c)) eqn:H2; simpl;
      rewrite ?Z.ltb_ge, ?Z.ltb_lt in *; try done; lia.
  - intros [x|] [c|] Hx Hc; simpl; try done.
    destruct Hx as (_ & Hx & _), Hc as (Hc & _).
    pose proof (Hmono x (x + c) ltac:(lia)).
    destruct (top <? rnd (x + c)); simpl; [done|]. apply Z.ltb_ge. lia.
Qed.

End Rounding.

Lemma coarse_lawful : lawful (A:=coarse) (representable round_down 14).
Proof.
  apply rounding_lawful; unfold round_down.
  - intros x y Hxy. destruct (x <? 8) eqn:Hx, (y <? 8) eqn:Hy;
      rewrite ?Z.ltb_ge, ?Z.ltb_lt in *; Z.to_euclidean_division_equations; lia.
  - intros x. destruct (x <? 8) eqn:Hx; [by rewrite Hx|].
    apply Z.ltb_ge in Hx.
    destruct (2 * (x / 2) <? 8) eqn:H2; [done|].
    Z.to_euclidean_division_equations; lia.
  - done.
  - done.
Qed.

Lemma listed_visit_order {A : arith} : visit_order (A:=A) listed.
Proof. by intros u adj. Qed.

Lemma backwards_visit_order {A : arith} : visit_order (A:=A) backwards.
Proof. intros u adj. apply reverse_Permutation. Qed.

(** ** The properties of dijkstra over the floats *)

(** C1. With weights that are values of the contract (for the floats of
    Python: no NaN, sign bit clear) and a source that is a key of the graph,
    the distance table dijkstra returns has the keys of the graph and gives
    every node the least total of a directed path from the source, the
    weights of a path being added from the source on by the addition of the
    code, or [float('inf')] when there is no such path; and dijkstra does
    return when every edge target is a key.  This holds for every arithmetic
    that has the laws [lawful] and for every order in which the dicts yield
    their entries. *)
Theorem dijkstra_shortest_distances {A : arith} (good : float A → Prop) items
    (g : gmap string (gmap string (float A))) s :
  lawful good → visit_order items → good_weights good g → is_Some (g !! s) →
  (closed g → ∃ D P, dijkstra items (S (edge_count g)) g s = Ok (D, P)) ∧
  ∀ fuel D P, dijkstra items fuel g s = Ok (D, P) →
    dom D = dom g ∧ ∀ v dv, D !! v = Some dv → shortest g s v dv.
Proof.
  intros Hlaw Hitems Hw Hs. split.
  - intros Hcl. apply (fl_dijkstra_returns good Hlaw); [done..|lia].
  - intros fuel D P Hrun.
    destruct (fl_dijkstra_final good Hlaw g s Hw Hs items Hitems fuel D P Hrun)
      as (budget & st & Hinv & Hq & <- & <-).
    split.
    + destruct Hinv as (M & popped & HI & _). apply (inv_dom _ _ _ _ _ _ HI).
    + intros v dv HDv. by eapply fl_final_shortest.
Qed.

(** C2. With weights that are values of the contract and a source in the
    graph, for every node whose returned distance is below [float('inf')],
    reconstruct_path on the returned predecessor table yields a sequence
    that starts at the source, ends at the node, follows edges of the graph,
    and whose edge weights, added in order from the source on by the
    addition of the code, total exactly that distance. *)
Theorem dijkstra_path_consistent {A : arith} (good : float A → Prop) items
    (g : gmap string (gmap string (float A))) s fuel D P v dv :
  lawful good → visit_order items → good_weights good g → is_Some (g !! s) →
  dijkstra items fuel g s = Ok (D, P) →
  D !! v = Some dv → (dv < inf)%fl →
  ∃ path, reconstruct_path (length path) P (Some v) = Ok path ∧
    head path = Some s ∧ last path = Some v ∧
    follows_edges g path ∧ total_weight g path = Some dv.
Proof.
  intros Hlaw Hitems Hw Hs Hrun HDv Hfin.
  destruct (fl_dijkstra_final good Hlaw g s Hw Hs items Hitems fuel D P Hrun)
    as (budget & st & (M & popped & HI & _) & Hq & <- & <-).
  destruct (inv_chain _ _ _ _ _ _ HI v dv HDv Hfin) as [l Hl].
  destruct (fl_pchain_path _ _ _ _ _ _ Hl) as (Hhd & Hlast & Htw & Hrec).
  exists l. split_and!; [|done..| |done].
  - unfold reconstruct_path. rewrite Hrec. by rewrite app_nil_r.
  - destruct l as [|a rest]; [done|]. by eapply fl_path_weight_edges.
Qed.

(** C8. The tables of dijkstra are a function of the graph as a mapping and
    of the source: two runs that visit the entries of the dicts in two
    orders, and so push their tuples on the heap in two orders, end the same
    way with the same fuel (the same tables, or a [KeyError] each), and two
    runs that return, whatever their fuel, return the same distance table
    and the same predecessor table.  The weights are values on which [<] is
    a total order (no NaN). *)
Theorem dijkstra_deterministic {A : arith} (good : float A → Prop) items1 items2
    (g : gmap string (gmap string (float A))) s :
  ordered good → good_weights good g → visit_order items1 → visit_order items2 →
  (∀ fuel, agree eq (dijkstra items1 fuel g s) (dijkstra items2 fuel g s)) ∧
  (∀ fuel1 fuel2 D1 P1 D2 P2,
     dijkstra items1 fuel1 g s = Ok (D1, P1) →
     dijkstra items2 fuel2 g s = Ok (D2, P2) →
     D1 = D2 ∧ P1 = P2).
Proof.
  intros Hord Hw H1 H2. split.
  - intros fuel. by apply (fl_dijkstra_same good).
  - intros fuel1 fuel2 D1 P1 D2 P2. by apply (fl_dijkstra_same_tables good).
Qed.

(** X4. Whatever the weights, every distance dijkstra returns is
    [float('inf')] or the total of a directed path of the graph from the
    source, its weights added from the source on by the addition of the
    code. *)
Theorem dijkstra_distances_are_walks {A : arith} items
    (g : gmap string (gmap string (float A))) s fuel D P v dv :
  visit_order items → dijkstra items fuel g s = Ok (D, P) → D !! v = Some dv →
  dv = inf ∨ walk g s v dv.
Proof.
  intros Hitems Hrun HDv.
  by apply (fl_loop_walks g s items Hitems fuel (init g s) D P (fl_init_walks g s) Hrun).
Qed.

(** X6. With weights that are values of the contract, the distance of a node
    that has a predecessor is the sum, as the code computes it, of the
    distance of the predecessor and of the weight of the edge between
    them. *)
Theorem dijkstra_predecessor_edge {A : arith} (good : float A → Prop) items
    (g : gmap string (gmap string (float A))) s fuel D P v u :
  lawful good → visit_order items → good_weights good g → is_Some (g !! s) →
  dijkstra items fuel g s = Ok (D, P) → P !! v = Some (Some u) →
  ∃ w du, edge g u v w ∧ D !! u = Some du ∧ D !! v = Some (du + w)%fl.
Proof.
  intros Hlaw Hitems Hw Hs Hrun HPv.
  destruct (fl_dijkstra_final good Hlaw g s Hw Hs items Hitems fuel D P Hrun)
    as (budget & st & (M & popped & HI & _) & Hq & <- & <-).
  destruct (inv_prev _ _ _ _ _ _ HI v u HPv) as (dv & HDv & Hfin).
  destruct (inv_chain _ _ _ _ _ _ HI v dv HDv Hfin) as [l Hl].
  destruct (fl_pchain_last_link _ _ _ _ _ _ _ Hl HPv) as (w & du & He & HDu & ->).
  by exists w, du.
Qed.

(** X7. With weights that are values of the contract, no edge can improve
    the distances returned: along every edge out of a node whose distance is
    below [float('inf')], the distance of the target is at most the sum, as
    the code computes it, of the distance of the origin and of the weight. *)
Theorem dijkstra_no_edge_improves {A : arith} (good : float A → Prop) items
    (g : gmap string (gmap string (float A))) s fuel D P u v w du :
  lawful good → visit_order items → good_weights good g → is_Some (g !! s) →
  dijkstra items fuel g s = Ok (D, P) →
  edge g u v w → D !! u = Some du → (du < inf)%fl →
  ∃ dv, D !! v = Some dv ∧ (dv ≤ du + w)%fl.
Proof.
  intros Hlaw Hitems Hw Hs Hrun He HDu Hfin.
  destruct (fl_dijkstra_final good Hlaw g s Hw Hs items Hitems fuel D P Hrun)
    as (budget & st & Hinv & Hq & <- & <-).
  pose proof (fl_final_settled st Hq u du HDu Hfin) as Hset.
  destruct Hinv as (M & popped & HI & _).
  by destruct (inv_relaxed _ _ _ _ _ _ HI u du v w Hset HDu He) as [[]|?].
Qed.

(** ** The theorems at work on concrete inputs *)

Lemma exact_ordered : ordered (A:=exact) (λ _, True).
Proof.
  split; unfold le, lt; simpl;
    repeat (let x := fresh in intros x; try (destruct x as [?|]));
    simpl in *; rewrite ?bool_decide_eq_true, ?Z.ltb_lt, ?Z.ltb_ge in *;
    try first [ done | lia | f_equal; lia ].
Qed.

Lemma fl_weights_checked {A : arith} (good : float A → Prop) (goodb : float A → bool)
    (g : gmap string (gmap string (float A))) :
  (∀ w, goodb w = true → good w) →
  forallb (λ kv, forallb (λ e, goodb e.2) (map_to_list kv.2)) (map_to_list g) = true →
  good_weights good g.
Proof.
  intros Hb. rewrite forallb_forall.
  intros H u v w (adj & Hg & Hv).
  apply elem_of_map_to_list, list_elem_of_In, H in Hg. simpl in Hg.
  rewrite forallb_forall in Hg.
  apply elem_of_map_to_list, list_elem_of_In, Hg in Hv. by apply Hb.
Qed.

Lemma coarse_weights : good_weights (A:=coarse) (representable round_down 14) coarse_graph.
Proof.
  apply (fl_weights_checked (A:=coarse) _
           (λ w, match w with
                 | Fin x => (0 <=? x) && (round_down x =? x) && (x <=? 14)
                 | Inf => true
                 end)); [|by vm_compute].
  intros [x|]; [|done].
  intros [[H1%Z.leb_le H2%Z.eqb_eq]%andb_true_iff H3%Z.leb_le]%andb_true_iff.
  done.
Qed.

Lemma coarse_source : is_Some (coarse_graph !! "A"%string).
Proof. vm_compute. eauto. Qed.

Lemma coarse_run :
  dijkstra (A:=coarse) listed 5 coarse_graph "A" = Ok (coarse_distances, coarse_previous).
Proof. by vm_compute. Qed.

Lemma dijkstra_shortest_distances_witness :
  lawful (A:=coarse) (representable round_down 14) ∧
  good_weights (A:=coarse) (representable round_down 14) coarse_graph ∧
  shortest (A:=coarse) coarse_graph "A" "D" (Fin 8).
Proof.
  split_and!; [apply coarse_lawful|apply coarse_weights|].
  destruct (dijkstra_shortest_distances (representable round_down 14) listed
              coarse_graph "A" coarse_lawful listed_visit_order coarse_weights
              coarse_source) as [_ H].
  destruct (H 5%nat _ _ coarse_run) as [_ Hs].
  apply Hs. by vm_compute.
Defined.

Lemma dijkstra_path_consistent_witness :
  ∃ path, reconstruct_path (length path) coarse_previous (Some "D"%string) = Ok path ∧
    head path = Some "A"%string ∧ last path = Some "D"%string ∧
    follows_edges (A:=coarse) coarse_graph path ∧
    total_weight (A:=coarse) coarse_graph path = Some (Fin 8).
Proof.
  apply (dijkstra_path_consistent (representable round_down 14) listed
           coarse_graph "A" 5 coarse_distances coarse_previous "D" (Fin 8)).
  - apply coarse_lawful.
  - apply listed_visit_order.
  - apply coarse_weights.
  - apply coarse_source.
  - apply coarse_run.
  - by vm_compute.
  - reflexivity.
Defined.

Lemma dijkstra_deterministic_witness :
  agree eq (dijkstra (A:=exact) listed 4 two_path_graph "A")
           (dijkstra (A:=exact) backwards 4 two_path_graph "A").
Proof.
  apply (dijkstra_deterministic (A:=exact) (λ _, True) listed backwards
           two_path_graph "A").
  - apply exact_ordered.
  - by intros u v w _.
  - apply listed_visit_order.
  - apply backwards_visit_order.
Defined.

Lemma dijkstra_distances_are_walks_witness :
  Fin (-1) = inf (a:=exact) ∨ walk (A:=exact) negative_graph "A" "B" (Fin (-1)).
Proof.
  apply (dijkstra_distances_are_walks (A:=exact) listed negative_graph "A" 2
           {[ "A" := Fin 0; "B" := Fin (-1) ]}%string
           {[ "A" := None; "B" := Some "A" ]}%string).
  - apply listed_visit_order.
  - by vm_compute.
  - by vm_compute.
Defined.

Lemma dijkstra_predecessor_edge_witness :
  ∃ w du, edge (A:=coarse) coarse_graph "C" "D" w ∧
    coarse_distances !! "C"%string = Some du ∧
    coarse_distances !! "D"%string = Some (du + w)%fl.
Proof.
  apply (dijkstra_predecessor_edge (representable round_down 14) listed
           coarse_graph "A" 5 coarse_distances coarse_previous "D" "C").
  - apply coarse_lawful.
  - apply listed_visit_order.
  - apply coarse_weights.
  - apply coarse_source.
  - apply coarse_run.
  - by vm_compute.
Defined.

Lemma dijkstra_no_edge_improves_witness :
  ∃ dv, coarse_distances !! "C"%string = Some dv ∧
        (dv ≤ add (a:=coarse) (Fin 8) (Fin 1))%fl.
Proof.
  apply (dijkstra_no_edge_improves (representable round_down 14) listed
           coarse_graph "A" 5 coarse_distances coarse_previous "B" "C" (Fin 1) (Fin 8)).
  - apply coarse_lawful.
  - apply listed_visit_order.
  - apply coarse_weights.
  - apply coarse_source.
  - apply coarse_run.
  - exists {[ "C" := Fin 1 ]}%string. by vm_compute.
  - by vm_compute.
  - reflexivity.
Defined.

(** ** The floats of Python at work

    On the floats of Python the sum 2^53 + 1.0 is 2^53: C and D are at the
    distance of B, and the path to D goes through C.  With exact numbers the
    same graph gives D the distance 2^53 + 2 by the direct edge. *)
Example rounding_scenario :
  ∃ D P, dijkstra (A:=binary64) listed 5 rounding_graph "A" = Ok (D, P) ∧
    dijkstra (A:=binary64) backwards 5 rounding_graph "A" = Ok (D, P) ∧
    D !! "B"%string = Some 0x1p+53%float ∧
    D !! "C"%string = Some 0x1p+53%float ∧
    D !! "D"%string = Some 0x1p+53%float ∧
    P !! "D"%string = Some (Some "C"%string) ∧
    reconstruct_path 4 P (Some "D"%string) = Ok ["A"; "B"; "C"; "D"]%string ∧
    total_weight rounding_graph ["A"; "B"; "C"; "D"]%string = Some 0x1p+53%float.
Proof. do 2 eexists. split_and!; by vm_compute. Qed.

Example exact_sums_differ :
  ∃ D P, dijkstra (A:=exact) listed 5 unrounded_graph "A" = Ok (D, P) ∧
    D !! "C"%string = Some (Fin 9007199254740993) ∧
    D !! "D"%string = Some (Fin 9007199254740994) ∧
    P !! "D"%string = Some (Some "A"%string).
Proof. do 2 eexists. split_and!; by vm_compute. Qed.

(** A sum too large is [float('inf')]: C keeps the distance of a node that
    no path reaches, and has no predecessor, though the path A, B, C is
    there. *)
Example overflow_scenario :
  ∃ D P, dijkstra (A:=binary64) listed 3 overflow_graph "A" = Ok (D, P) ∧
    D !! "B"%string = Some 0x1p+1023%float ∧
    D !! "C"%string = Some infinity ∧
    P !! "C"%string = Some None ∧
    total_weight overflow_graph ["A"; "B"; "C"]%string = Some infinity.
Proof. do 2 eexists. split_and!; by vm_compute. Qed.

(** Latencies with a fractional part: 12.5 + 0.25. *)
Example fraction_scenario :
  ∃ D P, dijkstra (A:=binary64) listed 3 fraction_graph "A" = Ok (D, P) ∧
    D !! "C"%string = Some 12.75%float ∧
    reconstruct_path 3 P (Some "C"%string) = Ok ["A"; "B"; "C"]%string.
Proof. do 2 eexists. split_and!; by vm_compute. Qed.

(** The laws of [lawful] hold of the floats of Python on a sample that has
    the values of the three scenarios. *)
Example binary64_laws_on_sample : laws_hold_on sample64 = true.
Proof. by vm_compute. Qed.

End RoundedFacts.
